(** * queuectl: the job store and dispatch engine of [storage.py]

    A shallow embedding of [storage.py] (with the defaults of [config.py]):
    the JSON document holding jobs, dead-letter entries and worker records,
    the file lock every operation takes, and the operations themselves,
    written in a small state-and-exception monad over the storage file and
    the lock.

    Conventions of the embedding.
    - Every [datetime.utcnow()] call of the source is an explicit argument
      of the embedded function, in the order of the calls.
    - [uuid.uuid4()] is an explicit argument of [enqueue_job].
    - [get_config()] is an explicit [config] argument.
    - [_write_data] serialises with [json.dump(..., default=str)], so a
      field that holds a [datetime] in memory is persisted as
      [str(datetime)].  The embedded records hold that text: the timestamps
      of a job or worker record are strings, exactly as [json.load] hands
      them back on the next read.
    - [print] calls are dropped. *)

From Stdlib Require Import ZArith Lia Ascii Sorted.
From stdpp Require Import base option list strings gmap.

Open Scope Z_scope.

Set Warnings "-clear-no-such-hyp".

(** ** Python's [datetime], as far as [storage.py] uses it *)

Module Datetime.

Record datetime := mkDatetime {
  year : Z; month : Z; day : Z;
  hour : Z; minute : Z; second : Z; microsecond : Z
}.

Definition _is_leap (y : Z) : bool :=
  (y mod 4 =? 0) && (negb (y mod 100 =? 0) || (y mod 400 =? 0)).

(** The table [_DAYS_IN_MONTH], for months 1 to 12. *)
Definition _DAYS_IN_MONTH (m : Z) : Z :=
  if (m =? 2) then 28
  else if (m =? 4) || (m =? 6) || (m =? 9) || (m =? 11) then 30
  else 31.

Definition _DAYS_BEFORE_MONTH (m : Z) : Z :=
  nth (Z.to_nat m) [-1; 0; 31; 59; 90; 120; 151; 181; 212; 243; 273; 304; 334] 0.

Definition _days_in_month (y m : Z) : Z :=
  if (m =? 2) && _is_leap y then 29 else _DAYS_IN_MONTH m.

Definition _days_before_year (y : Z) : Z :=
  let y := y - 1 in y * 365 + y / 4 - y / 100 + y / 400.

Definition _days_before_month (y m : Z) : Z :=
  _DAYS_BEFORE_MONTH m + (if (2 <? m) && _is_leap y then 1 else 0).

Definition _ymd2ord (y m d : Z) : Z :=
  _days_before_year y + _days_before_month y m + d.

Definition _DI400Y : Z := 146097.
Definition _DI100Y : Z := 36524.
Definition _DI4Y : Z := 1461.
Definition _MAXORDINAL : Z := 3652059.

(** [_ord2ymd] of CPython's [datetime] module, returning (year, month, day). *)
Definition _ord2ymd (n : Z) : Z * Z * Z :=
  let n := n - 1 in
  let n400 := n / _DI400Y in let n := n mod _DI400Y in
  let y := n400 * 400 + 1 in
  let n100 := n / _DI100Y in let n := n mod _DI100Y in
  let n4 := n / _DI4Y in let n := n mod _DI4Y in
  let n1 := n / 365 in let n := n mod 365 in
  let y := y + n100 * 100 + n4 * 4 + n1 in
  if (n1 =? 4) || (n100 =? 4) then (y - 1, 12, 31)
  else
    let leapyear := (n1 =? 3) && (negb (n4 =? 24) || (n100 =? 3)) in
    let m := Z.shiftr (n + 50) 5 in
    let preceding := _DAYS_BEFORE_MONTH m + (if (2 <? m) && leapyear then 1 else 0) in
    if n <? preceding then
      let m := m - 1 in
      let preceding :=
        preceding - (_DAYS_IN_MONTH m + (if (m =? 2) && leapyear then 1 else 0)) in
      (y, m, n - preceding + 1)
    else (y, m, n - preceding + 1).

(** The values a [datetime] object can hold. *)
Definition valid (d : datetime) : Prop :=
  1 <= year d <= 9999 /\ 1 <= month d <= 12 /\
  1 <= day d <= _days_in_month (year d) (month d) /\
  0 <= hour d < 24 /\ 0 <= minute d < 60 /\ 0 <= second d < 60 /\
  0 <= microsecond d < 1000000.

Definition validb (d : datetime) : bool :=
  (1 <=? year d) && (year d <=? 9999) && (1 <=? month d) && (month d <=? 12) &&
  (1 <=? day d) && (day d <=? _days_in_month (year d) (month d)) &&
  (0 <=? hour d) && (hour d <? 24) && (0 <=? minute d) && (minute d <? 60) &&
  (0 <=? second d) && (second d <? 60) &&
  (0 <=? microsecond d) && (microsecond d <? 1000000).

Definition toordinal (d : datetime) : Z := _ymd2ord (year d) (month d) (day d).

(** Microseconds counted from the start of ordinal day 0 (the day before
    0001-01-01): the quantity on which [datetime] comparison, [-] and
    [+ timedelta] work. *)
Definition to_microseconds (d : datetime) : Z :=
  ((toordinal d * 86400 + hour d * 3600 + minute d * 60 + second d) * 1000000)
  + microsecond d.

Definition of_microseconds (us : Z) : datetime :=
  let secs := us / 1000000 in
  let days := secs / 86400 in
  let rem := secs mod 86400 in
  let '(y, m, d) := _ord2ymd days in
  mkDatetime y m d (rem / 3600) ((rem mod 3600) / 60) (rem mod 60) (us mod 1000000).

(** [d + timedelta(seconds=n)] for an integer [n]: [None] is the
    [OverflowError] Python raises when the sum leaves year 1..9999 (a
    [timedelta] too large to build at all is such a sum too). *)
Definition add_seconds (d : datetime) (n : Z) : option datetime :=
  let us := to_microseconds d + n * 1000000 in
  let days := us / 1000000 / 86400 in
  if (0 <? days) && (days <=? _MAXORDINAL) then Some (of_microseconds us) else None.

(** [(a - b).total_seconds() < n], for an integer [n], decided on exact
    microseconds. *)
Definition elapsed_lt (a b : datetime) (n : Z) : bool :=
  to_microseconds a - to_microseconds b <? n * 1000000.

(** *** Text forms *)

Definition digit (n : Z) : ascii := ascii_of_nat (48 + Z.to_nat (n mod 10)).

(** ["%0<w>d" % n] for [0 <= n < 10^w]. *)
Fixpoint zfill (w : nat) (n : Z) : string :=
  match w with
  | O => EmptyString
  | S w' => String (digit (n / 10 ^ Z.of_nat w')) (zfill w' n)
  end.

(** [d.isoformat(sep)]: the microseconds are printed only when non-zero. *)
Definition isoformat_sep (sep : ascii) (d : datetime) : string :=
  zfill 4 (year d) +:+ "-" +:+ zfill 2 (month d) +:+ "-" +:+ zfill 2 (day d)
  +:+ String sep
       (zfill 2 (hour d) +:+ ":" +:+ zfill 2 (minute d) +:+ ":" +:+ zfill 2 (second d)
        +:+ (if microsecond d =? 0 then "" else "." +:+ zfill 6 (microsecond d))).

(** [d.isoformat()] *)
Definition isoformat (d : datetime) : string := isoformat_sep "T"%char d.

(** [str(d)], which is [d.isoformat(sep=' ')]: what [json.dump(default=str)]
    writes for a [datetime]. *)
Definition str (d : datetime) : string := isoformat_sep " "%char d.

(** *** Parsing *)

Definition digit_val (c : ascii) : option Z :=
  let n := Z.of_nat (nat_of_ascii c) in
  if (48 <=? n) && (n <=? 57) then Some (n - 48) else None.

(** Reads exactly [w] decimal digits. *)
Fixpoint read_digits (w : nat) (acc : Z) (s : string) : option (Z * string) :=
  match w with
  | O => Some (acc, s)
  | S w' =>
      match s with
      | String c s' =>
          match digit_val c with
          | Some v => read_digits w' (acc * 10 + v) s'
          | None => None
          end
      | EmptyString => None
      end
  end.

Definition expect (c : ascii) (s : string) : option string :=
  match s with
  | String c' s' => if Ascii.eqb c c' then Some s' else None
  | EmptyString => None
  end.

Definition skip_char (s : string) : option string :=
  match s with
  | String _ s' => Some s'
  | EmptyString => None
  end.

(** [datetime.fromisoformat] on the two shapes [str(datetime)] produces,
    ["YYYY-MM-DD?HH:MM:SS"] and ["YYYY-MM-DD?HH:MM:SS.ffffff"] with any
    separator character; [None] is the [ValueError] path.  (Python also
    accepts shorter time parts and UTC offsets; no text of such a shape is
    ever written to the store by [storage.py].) *)
Definition fromisoformat (s : string) : option datetime :=
  '(y, s) ← read_digits 4 0 s;
  s ← expect "-"%char s;
  '(m, s) ← read_digits 2 0 s;
  s ← expect "-"%char s;
  '(d, s) ← read_digits 2 0 s;
  s ← skip_char s;
  '(hh, s) ← read_digits 2 0 s;
  s ← expect ":"%char s;
  '(mi, s) ← read_digits 2 0 s;
  s ← expect ":"%char s;
  '(ss, s) ← read_digits 2 0 s;
  '(us, s) ← match s with
             | EmptyString => Some (0, EmptyString)
             | _ => s ← expect "."%char s; read_digits 6 0 s
             end;
  let r := mkDatetime y m d hh mi ss us in
  match s with
  | EmptyString => if validb r then Some r else None
  | _ => None
  end.

End Datetime.

Import Datetime.

(** ** [config.py] *)

Record config := mkConfig {
  cfg_max_retries : Z;
  cfg_backoff_base : Z;
  cfg_worker_heartbeat_seconds : Z;
  cfg_worker_timeout_seconds : Z
}.

Definition DEFAULT_CONFIG : config :=
  {| cfg_max_retries := 3; cfg_backoff_base := 2;
     cfg_worker_heartbeat_seconds := 10; cfg_worker_timeout_seconds := 30 |}.

(** ** The persisted document *)

Inductive job_state := pending | processing | completed | dead.

Global Instance job_state_eq_dec : EqDecision job_state.
Proof. solve_decision. Defined.

Definition state_name (s : job_state) : string :=
  match s with
  | pending => "pending" | processing => "processing"
  | completed => "completed" | dead => "dead"
  end.

(** A job dictionary.  [attempts] is a counter (created 0, only ever
    incremented or reset to 0); [max_retries] is whatever integer the caller
    or the configuration supplied. *)
Record job := mkJob {
  id : string;
  command : string;
  state : job_state;
  attempts : nat;
  max_retries : Z;
  run_at : string;
  created_at : string;
  updated_at : string
}.

Record worker := mkWorker {
  pid : Z;
  last_heartbeat : string
}.

(** The dictionary [_read_data] returns and [_write_data] takes. *)
Record data := mkData {
  jobs : list job;
  dlq : list job;
  active_workers : list worker
}.

(** What [open(STORAGE_FILE)] followed by [json.load] can meet: no file
    ([FileNotFoundError]), text that is not JSON ([json.JSONDecodeError]), or
    a document with its ["jobs"] and ["dlq"] arrays and, possibly, an
    ["active_workers"] array. *)
Inductive file_content :=
| NoFile
| NotJSON
| Document (js dl : list job) (ws : option (list worker)).

(** The two resources the operations share: the storage file and the lock
    file.  [lock_held] tells whether some [FileLock] object currently holds
    the lock on [LOCK_FILE]. *)
Record world := mkWorld {
  storage_file : file_content;
  lock_held : bool
}.

Inductive exn :=
| FileNotFoundError
| JSONDecodeError   (* json.JSONDecodeError *)
| LockTimeout       (* filelock.Timeout *)
| OverflowError.    (* datetime + timedelta out of range *)

Inductive outcome (A : Type) :=
| Returned (a : A)
| Raised (e : exn).
Arguments Returned {A} a.
Arguments Raised {A} e.

(** ** The monad of store operations *)

Definition M (A : Type) : Type := world -> outcome A * world.

Definition ret {A} (a : A) : M A := fun w => (Returned a, w).

Definition raise {A} (e : exn) : M A := fun w => (Raised e, w).

Definition bind {A B} (m : M A) (k : A -> M B) : M B :=
  fun w =>
    match m w with
    | (Returned a, w') => k a w'
    | (Raised e, w') => (Raised e, w')
    end.

Notation "'do' x <- c1 ; c2" := (bind c1 (fun x => c2))
  (at level 10, x name, c1 at level 100, c2 at level 200).

(** [with _get_lock(): body].  [_get_lock] builds a new [FileLock] object on
    every call, so the lock is not re-entrant across calls: [FileLock]
    counts re-entry per object, and the operating-system lock taken through
    one object refuses a second object of the same process like any other
    contender.  Nothing releases the lock while the caller waits on itself,
    so after the 10 second timeout [acquire] raises [LockTimeout] and the body
    does not run.  Otherwise the body runs with the lock held and the lock
    is released on every exit path. *)
Definition with_lock {A} (body : M A) : M A :=
  fun w =>
    if lock_held w then (Raised LockTimeout, w)
    else
      let '(r, w') := body (mkWorld (storage_file w) true) in
      (r, mkWorld (storage_file w') false).

(** [try: body except (...): handler], where [catches] tells which
    exceptions the [except] clause names. *)
Definition try_except {A} (body : M A) (catches : exn -> bool) (handler : M A)
    : M A :=
  fun w =>
    match body w with
    | (Returned a, w') => (Returned a, w')
    | (Raised e, w') => if catches e then handler w' else (Raised e, w')
    end.

(** [except (FileNotFoundError, json.JSONDecodeError)] *)
Definition missing_or_corrupt (e : exn) : bool :=
  match e with
  | FileNotFoundError | JSONDecodeError => true
  | _ => false
  end.

(** [open(STORAGE_FILE, 'r')] followed by [json.load(f)]. *)
Definition open_and_load : M (list job * list job * option (list worker)) :=
  fun w =>
    match storage_file w with
    | NoFile => (Raised FileNotFoundError, w)
    | NotJSON => (Raised JSONDecodeError, w)
    | Document js dl ws => (Returned (js, dl, ws), w)
    end.

Definition empty_data : data := mkData [] [] [].

Definition _read_data : M data :=
  try_except
    (do doc <- open_and_load;
     let '(js, dl, ws) := doc in
     match ws with
     | Some ws => ret (mkData js dl ws)
     | None => ret (mkData js dl [])
     end)
    missing_or_corrupt
    (ret (mkData [] [] [])).

Definition _write_data (d : data) : M unit :=
  fun w =>
    (Returned tt,
     mkWorld (Document (jobs d) (dlq d) (Some (active_workers d))) (lock_held w)).

Definition init_storage : M unit :=
  with_lock
    (try_except
       (do _ <- open_and_load; ret tt)
       missing_or_corrupt
       (fun w => (Returned tt, mkWorld (Document [] [] (Some [])) (lock_held w)))).

(** ** Operations of [storage.py] *)

Definition set_state (v : job_state) (j : job) : job :=
  mkJob (id j) (command j) v (attempts j) (max_retries j)
        (run_at j) (created_at j) (updated_at j).

Definition set_attempts (v : nat) (j : job) : job :=
  mkJob (id j) (command j) (state j) v (max_retries j)
        (run_at j) (created_at j) (updated_at j).

Definition set_run_at (v : string) (j : job) : job :=
  mkJob (id j) (command j) (state j) (attempts j) (max_retries j)
        v (created_at j) (updated_at j).

Definition set_updated_at (v : string) (j : job) : job :=
  mkJob (id j) (command j) (state j) (attempts j) (max_retries j)
        (run_at j) (created_at j) v.

Definition set_jobs (v : list job) (d : data) : data :=
  mkData v (dlq d) (active_workers d).

Definition set_dlq (v : list job) (d : data) : data :=
  mkData (jobs d) v (active_workers d).

Definition set_active_workers (v : list worker) (d : data) : data :=
  mkData (jobs d) (dlq d) v.

Definition enqueue_job (cfg : config) (cmd : string) (retries : option Z)
    (job_id : string) (now : datetime) : M string :=
  let job :=
    {| id := job_id; command := cmd; state := pending; attempts := 0;
       max_retries := match retries with
                      | Some r => r
                      | None => cfg_max_retries cfg
                      end;
       run_at := str now; created_at := str now; updated_at := str now |} in
  do _ <- with_lock
            (do d <- _read_data;
             _write_data (set_jobs (jobs d ++ [job]) d));
  ret job_id.

(** [enumerate(l)], counting from [n]. *)
Fixpoint enumerate_from {A} (n : nat) (l : list A) : list (nat * A) :=
  match l with
  | [] => []
  | x :: l' => (n, x) :: enumerate_from (S n) l'
  end.

(** The test of the dispatch loop:
    [job["state"] == "pending" and job["run_at"] <= now.isoformat()],
    a comparison of two strings. *)
Definition eligible (now : datetime) (j : job) : bool :=
  bool_decide (state j = pending) && String.leb (run_at j) (isoformat now).

(** [pending_jobs.sort(key=lambda x: x[1]["created_at"])].  Python's sort is
    stable and compares keys with [<]; among stable sorts the result is
    unique, and it is the one this insertion sort builds. *)
Fixpoint insert_by_created_at (x : nat * job) (l : list (nat * job))
    : list (nat * job) :=
  match l with
  | [] => [x]
  | y :: l' =>
      if String.ltb (created_at y.2) (created_at x.2)
      then y :: insert_by_created_at x l'
      else x :: y :: l'
  end.

Definition sort_by_created_at (l : list (nat * job)) : list (nat * job) :=
  foldr insert_by_created_at [] l.

(** The job returned to the worker is the dictionary stored at
    [job_index]; its [updated_at] is shown in its persisted form. *)
Definition get_next_job_for_worker (now now' : datetime) : M (option job) :=
  with_lock
    (do d <- _read_data;
     let pending_jobs :=
       List.filter (fun x => eligible now x.2) (enumerate_from 0 (jobs d)) in
     let pending_jobs := sort_by_created_at pending_jobs in
     match pending_jobs with
     | (job_index, found_job) :: _ =>
         let found_job := set_state processing found_job in
         let found_job := set_updated_at (str now') found_job in
         do _ <- _write_data (set_jobs (<[job_index := found_job]> (jobs d)) d);
         ret (Some found_job)
     | [] => ret None
     end).

Definition update_job_to_completed (job_id : string) (now : datetime) : M unit :=
  with_lock
    (do d <- _read_data;
     match list_find (fun j => id j = job_id) (jobs d) with
     | Some (i, j) =>
         let j := set_state completed j in
         let j := set_updated_at (str now) j in
         _write_data (set_jobs (<[i := j]> (jobs d)) d)
     | None => ret tt
     end).

Definition handle_failed_job (cfg : config) (jb : job) (now now' : datetime)
    : M unit :=
  with_lock
    (do d <- _read_data;
     match list_find (fun j => id j = id jb) (jobs d) with
     | None => ret tt
     | Some (job_index, job_in_db) =>
         let job_in_db := set_attempts (attempts job_in_db + 1) job_in_db in
         if max_retries job_in_db <=? Z.of_nat (attempts job_in_db) then
           let failed_job := set_state dead job_in_db in
           _write_data
             (set_dlq (dlq d ++ [failed_job])
                (set_jobs (delete job_index (jobs d)) d))
         else
           let delay_seconds :=
             cfg_backoff_base cfg ^ Z.of_nat (attempts job_in_db) in
           match add_seconds now delay_seconds with
           | None => raise OverflowError
           | Some t =>
               let job_in_db := set_run_at (str t) job_in_db in
               let job_in_db := set_state pending job_in_db in
               let job_in_db := set_updated_at (str now') job_in_db in
               _write_data (set_jobs (<[job_index := job_in_db]> (jobs d)) d)
           end
     end).

(** Returns the count together with the dictionary it has updated in
    place.  A record whose [last_heartbeat] does not parse is skipped. *)
Definition _get_active_worker_count (cfg : config) (d : data) (now : datetime)
    : data * nat :=
  let timeout_seconds := cfg_worker_timeout_seconds cfg in
  let active_workers :=
    List.filter
      (fun w =>
         match fromisoformat (last_heartbeat w) with
         | Some hb => elapsed_lt now hb timeout_seconds
         | None => false
         end)
      (active_workers d) in
  (set_active_workers active_workers d, length active_workers).

Definition get_status (cfg : config) (now : datetime) : M (gmap string nat) :=
  do r <- with_lock
            (do d <- _read_data;
             let '(d, active_worker_count) := _get_active_worker_count cfg d now in
             do _ <- _write_data d;
             ret (d, active_worker_count));
  let '(d, active_worker_count) := r in
  let stats :=
    foldl (fun (stats : gmap string nat) j =>
             let st := state_name (state j) in
             <[st := (default 0 (stats !! st) + 1)%nat]> stats)
          ∅ (jobs d) in
  let stats := <["dead" := length (dlq d)]> stats in
  let stats := <["active_workers" := active_worker_count]> stats in
  ret stats.

(** [list_jobs(state)] for the four state names the command line admits. *)
Definition list_jobs (s : job_state) : M (list job) :=
  do d <- with_lock _read_data;
  if bool_decide (s = dead) then ret (dlq d)
  else ret (List.filter (fun j => bool_decide (state j = s)) (jobs d)).

Definition register_worker (p : Z) (now : datetime) : M unit :=
  with_lock
    (do d <- _read_data;
     let d :=
       set_active_workers
         (List.filter (fun w => negb (pid w =? p)) (active_workers d)) d in
     let d :=
       set_active_workers (active_workers d ++ [mkWorker p (str now)]) d in
     _write_data d).

Definition unregister_worker (p : Z) : M unit :=
  with_lock
    (do d <- _read_data;
     let d :=
       set_active_workers
         (List.filter (fun w => negb (pid w =? p)) (active_workers d)) d in
     _write_data d).

(** [now] is read when the record is found; [now_reg] is the reading of the
    nested [register_worker] call, which runs inside the [with] block. *)
Definition worker_heartbeat (p : Z) (now now_reg : datetime) : M unit :=
  with_lock
    (do d <- _read_data;
     match list_find (fun w => pid w = p) (active_workers d) with
     | Some (i, w) =>
         let w := mkWorker (pid w) (str now) in
         _write_data (set_active_workers (<[i := w]> (active_workers d)) d)
     | None =>
         do _ <- _write_data d;
         register_worker p now_reg
     end).

Definition retry_dlq_job (job_id : string) (now now' : datetime) : M bool :=
  with_lock
    (do d <- _read_data;
     match list_find (fun j => id j = job_id) (dlq d) with
     | None => ret false
     | Some (job_index, jb) =>
         let d := set_dlq (delete job_index (dlq d)) d in
         let jb := set_state pending jb in
         let jb := set_attempts 0 jb in
         let jb := set_run_at (str now) jb in
         let jb := set_updated_at (str now') jb in
         do _ <- _write_data (set_jobs (jobs d ++ [jb]) d);
         ret true
     end).

(** ** Runs of the store *)

(** One call of a public operation, with the values its environment
    supplies: clock readings, the fresh uuid, the configuration in force. *)
Inductive op :=
| OpInit
| OpEnqueue (cmd : string) (retries : option Z) (job_id : string) (now : datetime)
| OpDispatch (now now' : datetime)
| OpComplete (job_id : string) (now : datetime)
| OpFail (jb : job) (now now' : datetime)
| OpDlqRetry (job_id : string) (now now' : datetime)
| OpStatus (now : datetime)
| OpList (s : job_state)
| OpRegister (p : Z) (now : datetime)
| OpUnregister (p : Z)
| OpHeartbeat (p : Z) (now now_reg : datetime).

(** The world an operation leaves behind, whatever it returned or raised. *)
Definition run_op (cfg : config) (o : op) (w : world) : world :=
  match o with
  | OpInit => (init_storage w).2
  | OpEnqueue cmd retries job_id now => (enqueue_job cfg cmd retries job_id now w).2
  | OpDispatch now now' => (get_next_job_for_worker now now' w).2
  | OpComplete job_id now => (update_job_to_completed job_id now w).2
  | OpFail jb now now' => (handle_failed_job cfg jb now now' w).2
  | OpDlqRetry job_id now now' => (retry_dlq_job job_id now now' w).2
  | OpStatus now => (get_status cfg now w).2
  | OpList s => (list_jobs s w).2
  | OpRegister p now => (register_worker p now w).2
  | OpUnregister p => (unregister_worker p w).2
  | OpHeartbeat p now now_reg => (worker_heartbeat p now now_reg w).2
  end.

(** What [_read_data] makes of the file: the document, with
    ["active_workers"] added when the key is missing, or the empty
    dictionary on either of the two exceptions it catches. *)
Definition decode (f : file_content) : data :=
  match f with
  | Document js dl (Some ws) => mkData js dl ws
  | Document js dl None => mkData js dl []
  | NoFile | NotJSON => empty_data
  end.

(** The snapshot an operation would read from a world. *)
Definition load (w : world) : data := decode (storage_file w).

Definition live_ids (w : world) : list string := id <$> jobs (load w).
Definition dead_ids (w : world) : list string := id <$> dlq (load w).

(** A world before any job exists: the lock is free and the file is
    missing, unreadable, or a document without jobs. *)
Definition initial (w : world) : Prop :=
  lock_held w = false /\ jobs (load w) = [] /\ dlq (load w) = [].

(** Worlds reached from an initial one by calls that satisfy [ok]. *)
Inductive reachable_by (ok : world -> config -> op -> Prop) : world -> Prop :=
| reachable_initial w : initial w -> reachable_by ok w
| reachable_step w cfg o :
    reachable_by ok w -> ok w cfg o -> reachable_by ok (run_op cfg o w).

(** [uuid.uuid4()] hands out an identifier no job of the store carries. *)
Definition fresh_uuid (w : world) (_ : config) (o : op) : Prop :=
  match o with
  | OpEnqueue _ _ job_id _ => job_id ∉ live_ids w ++ dead_ids w
  | _ => True
  end.

Definition reachable : world -> Prop := reachable_by fresh_uuid.

(** The retry budget an enqueue call gives its job is not negative. *)
Definition nonneg_retries (_ : world) (cfg : config) (o : op) : Prop :=
  match o with
  | OpEnqueue _ (Some r) _ _ => 0 <= r
  | OpEnqueue _ None _ _ => 0 <= cfg_max_retries cfg
  | _ => True
  end.

(** A sequence of calls, run from left to right. *)
Fixpoint run_ops (l : list (config * op)) (w : world) : world :=
  match l with
  | [] => w
  | (cfg, o) :: l' => run_ops l' (run_op cfg o w)
  end.


(** [get_next_job_for_worker] called once per pair of clock readings, with
    nothing in between; the list of what the calls returned or raised. *)
Fixpoint dispatch_repeatedly (clock : list (datetime * datetime)) (w : world)
    : list (outcome (option job)) :=
  match clock with
  | [] => []
  | (now, now') :: clock' =>
      let '(r, w') := get_next_job_for_worker now now' w in
      r :: dispatch_repeatedly clock' w'
  end.

(** ** [worker.py]: reporting the outcome of a job *)

(** What [subprocess.run(job['command'], ..., timeout=60, shell=True)] ends
    with: a completed process with its return code, or an exception, told
    apart as the [except] clauses of [run_job] tell them apart. *)
Inductive run_result :=
| Exited (returncode : Z)
| CommandNotFound     (* FileNotFoundError *)
| TimeoutExpired      (* subprocess.TimeoutExpired *)
| OtherError.         (* any other Exception *)

(** [run_job(job)], given what the subprocess ended with.  The storage call
    for a completed process sits inside the [try] block, so an exception it
    raises is caught as well: every exception of [exn] is an [Exception],
    and each of the three [except] clauses calls [handle_failed_job(job)].
    [cfg], [now], [now'] are the configuration and clock readings of the
    call inside the [try] block; [cfg2], [now2], [now2'] those of the call
    in the [except] clause. *)
Definition run_job (cfg cfg2 : config) (jb : job) (result : run_result)
    (now now' now2 now2' : datetime) : M unit :=
  match result with
  | Exited returncode =>
      try_except
        (if returncode =? 0 then update_job_to_completed (id jb) now
         else handle_failed_job cfg jb now now')
        (fun _ => true)
        (handle_failed_job cfg2 jb now2 now2')
  | CommandNotFound | TimeoutExpired | OtherError =>
      handle_failed_job cfg2 jb now2 now2'
  end.

(** ** [config.py]: the configuration file *)

(** The values of a configuration dictionary: JSON scalars.  The files the
    program itself writes hold integers and strings only. *)
Inductive json :=
| JNull
| JBool (b : bool)
| JInt (n : Z)
| JStr (s : string).

(** What [open(CONFIG_FILE)] followed by [json.load] can meet: no file, text
    that is not JSON, or a JSON object.  A document that is JSON but not an
    object, which the program never writes, is left out. *)
Inductive config_file :=
| NoConfigFile
| InvalidConfig
| ConfigDict (c : gmap string json).

(** The items of the dictionary [DEFAULT_CONFIG], in the order of the
    source. *)
Definition DEFAULT_CONFIG_items : list (string * json) :=
  [("max_retries", JInt 3);
   ("backoff_base", JInt 2);
   ("storage_file", JStr "queue.json");
   ("lock_file", JStr "queue.lock");
   ("worker_heartbeat_seconds", JInt 10);
   ("worker_timeout_seconds", JInt 30)].

Definition DEFAULT_CONFIG_dict : gmap string json :=
  list_to_map DEFAULT_CONFIG_items.

(** [config.setdefault(key, value)] *)
Definition setdefault (key : string) (value : json) (c : gmap string json)
    : gmap string json :=
  match c !! key with
  | Some _ => c
  | None => <[key := value]> c
  end.

(** [save_config(config)]: the file becomes the dumped dictionary. *)
Definition save_config (c : gmap string json) (f : config_file) : config_file :=
  ConfigDict c.

(** [get_config()]: the result and the file it leaves.  Only
    [FileNotFoundError] is caught; a file that is not JSON raises. *)
Definition get_config (f : config_file)
    : outcome (gmap string json) * config_file :=
  match f with
  | ConfigDict c =>
      (Returned
         (foldl (fun c kv => setdefault kv.1 kv.2 c) c DEFAULT_CONFIG_items), f)
  | InvalidConfig => (Raised JSONDecodeError, f)
  | NoConfigFile =>
      (Returned DEFAULT_CONFIG_dict, save_config DEFAULT_CONFIG_dict f)
  end.

(** The entries [storage.py] reads from the result of [get_config()], when
    they are integers. *)
Definition config_of (c : gmap string json) : option config :=
  match c !! "max_retries", c !! "backoff_base",
        c !! "worker_heartbeat_seconds", c !! "worker_timeout_seconds" with
  | Some (JInt a), Some (JInt b), Some (JInt h), Some (JInt t) =>
      Some (mkConfig a b h t)
  | _, _, _, _ => None
  end.

(** ** [worker.py]: the worker loop *)

(** [try: body finally: final].  The [finally] block runs on every exit of
    the body; an exception it raises replaces the outcome of the body. *)
Definition try_finally {A} (body : M A) (final : M unit) : M A :=
  fun w =>
    let '(r, w') := body w in
    match final w' with
    | (Returned _, w'') => (r, w'')
    | (Raised e, w'') => (Raised e, w'')
    end.

(** What one pass of the [while] loop takes from its environment: the
    reading of [time.time()], the configuration and clock readings of the
    storage calls it may make, what the subprocess ends with if a job is
    dispatched, and whether a [KeyboardInterrupt] ends the idle wait.
    [T] is the type of the readings of [time.time()]. *)
Record pass (T : Type) := mkPass {
  pass_time : T;
  pass_heartbeat : datetime * datetime;
  pass_dispatch : datetime * datetime;
  pass_configs : config * config;
  pass_result : run_result;
  pass_report : (datetime * datetime) * (datetime * datetime);
  pass_interrupted : bool
}.
Arguments mkPass {T}.
Arguments pass_time {T}.
Arguments pass_heartbeat {T}.
Arguments pass_dispatch {T}.
Arguments pass_configs {T}.
Arguments pass_result {T}.
Arguments pass_report {T}.
Arguments pass_interrupted {T}.

(** The body of the [while] loop.  [overdue now last interval] stands for
    the floating-point test [(now - last_heartbeat) > heartbeat_interval],
    which is left as a parameter.  Returns the new [last_heartbeat] and
    whether the loop goes on ([false] is the [break]). *)
Definition worker_pass {T} (overdue : T -> T -> Z -> bool)
    (heartbeat_interval : Z) (p : Z) (last_heartbeat : T) (it : pass T)
    : M (T * bool) :=
  let now := pass_time it in
  do last_heartbeat <-
    (if overdue now last_heartbeat heartbeat_interval then
       do _ <- worker_heartbeat p (pass_heartbeat it).1 (pass_heartbeat it).2;
       ret now
     else ret last_heartbeat);
  do found <- get_next_job_for_worker (pass_dispatch it).1 (pass_dispatch it).2;
  match found with
  | Some jb =>
      do _ <- run_job (pass_configs it).1 (pass_configs it).2 jb (pass_result it)
                (pass_report it).1.1 (pass_report it).1.2
                (pass_report it).2.1 (pass_report it).2.2;
      ret (last_heartbeat, true)
  | None => ret (last_heartbeat, negb (pass_interrupted it))
  end.

(** [while not stop_event.is_set(): ...], one list element for each pass
    that found the event unset; the event is set when the list is used
    up. *)
Fixpoint worker_while {T} (overdue : T -> T -> Z -> bool)
    (heartbeat_interval : Z) (p : Z) (last_heartbeat : T) (passes : list (pass T))
    : M unit :=
  match passes with
  | [] => ret tt
  | it :: passes' =>
      do r <- worker_pass overdue heartbeat_interval p last_heartbeat it;
      if r.2 then worker_while overdue heartbeat_interval p r.1 passes'
      else ret tt
  end.

(** [start_worker_loop(stop_event)] for the process [p], with the
    configuration read at the start, the first reading [started] of
    [time.time()] and the clock reading of the registration. *)
Definition start_worker_loop {T} (overdue : T -> T -> Z -> bool)
    (cfg : config) (p : Z) (started : T) (now : datetime)
    (passes : list (pass T)) : M unit :=
  let heartbeat_interval := cfg_worker_heartbeat_seconds cfg in
  let last_heartbeat := started in
  try_finally
    (do _ <- register_worker p now;
     worker_while overdue heartbeat_interval p last_heartbeat passes)
    (unregister_worker p).

(** ** Notions used in the statements *)

Definition key_lt (x y : nat * job) : Prop :=
  String.ltb (created_at x.2) (created_at y.2) = true.
Definition key_le (x y : nat * job) : Prop :=
  String.leb (created_at x.2) (created_at y.2) = true.

(** The jobs the dispatch loop collects, sorts and takes the head of. *)
Definition candidates (now : datetime) (js : list job) : list (nat * job) :=
  sort_by_created_at
    (List.filter (fun x => eligible now x.2) (enumerate_from 0 js)).

(** The world after [_write_data d] and the release of the lock. *)
Definition stored (d : data) : world :=
  mkWorld (Document (jobs d) (dlq d) (Some (active_workers d))) false.

(** Every operation other than [enqueue_job] leaves the snapshot as it is,
    replaces the worker records, rewrites one live job in place, moves one
    live job to the dead-letter list, or moves one dead-letter entry back. *)
Inductive change : data -> data -> Prop :=
| change_none d : change d d
| change_workers d ws : change d (set_active_workers ws d)
| change_update d i j j' :
    jobs d !! i = Some j ->
    id j' = id j -> max_retries j' = max_retries j ->
    state j' = completed \/
    (state j = pending /\ attempts j' = attempts j) \/
    Z.of_nat (attempts j') < max_retries j' ->
    change d (set_jobs (<[i := j']> (jobs d)) d)
| change_kill d i j j' :
    jobs d !! i = Some j ->
    id j' = id j -> max_retries j' = max_retries j -> state j' = dead ->
    change d (set_dlq (dlq d ++ [j']) (set_jobs (delete i (jobs d)) d))
| change_revive d i j j' :
    dlq d !! i = Some j ->
    id j' = id j -> max_retries j' = max_retries j ->
    attempts j' = 0%nat -> state j' = pending ->
    change d (set_jobs (jobs d ++ [j']) (set_dlq (delete i (dlq d)) d)).

(** The job [enqueue_job] builds. *)
Definition new_job (cfg : config) (cmd : string) (retries : option Z)
    (job_id : string) (now : datetime) : job :=
  mkJob job_id cmd pending 0
    (match retries with Some r => r | None => cfg_max_retries cfg end)
    (str now) (str now) (str now).

Definition all_ids (d : data) : list string := (id <$> jobs d) ++ (id <$> dlq d).

(** The retry budget is respected once no enqueue supplies a negative one. *)
Definition within_budget (d : data) : Prop :=
  (forall j, j ∈ jobs d -> state j = pending \/ state j = processing ->
             Z.of_nat (attempts j) <= max_retries j) /\
  (forall j, j ∈ jobs d ++ dlq d -> 0 <= max_retries j).

(** [a] was created no later than [b], in the order the sort uses. *)
Definition created_le (a b : job) : Prop :=
  String.leb (created_at a) (created_at b) = true.


(** What [get_next_job_for_worker] hands to the worker for the stored job. *)
Definition leased (now' : datetime) (j : job) : job :=
  set_updated_at (str now') (set_state processing j).

(** The test [_get_active_worker_count] applies to a worker record. *)
Definition alive (cfg : config) (now : datetime) (x : worker) : bool :=
  match fromisoformat (last_heartbeat x) with
  | Some hb => elapsed_lt now hb (cfg_worker_timeout_seconds cfg)
  | None => false
  end.

(** ** Stores and clock readings used as examples *)

Definition no_store : world := mkWorld NoFile false.

Definition noon : datetime := mkDatetime 2025 1 1 12 0 0 0.
Definition noon_01 : datetime := mkDatetime 2025 1 1 12 0 1 0.
Definition noon_02 : datetime := mkDatetime 2025 1 1 12 0 2 0.
Definition noon_04 : datetime := mkDatetime 2025 1 1 12 0 4 0.

(** A job that was enqueued, dispatched and has failed once at 12:00:02,
    under the default configuration: its retry is due at 12:00:04. *)
Definition failed_once : world :=
  run_ops
    [(DEFAULT_CONFIG, OpEnqueue "exit 1" None "job-1" noon);
     (DEFAULT_CONFIG, OpDispatch noon_01 noon_01);
     (DEFAULT_CONFIG,
      OpFail (mkJob "job-1" "exit 1" processing 0 3
                "2025-01-01 12:00:00" "2025-01-01 12:00:00" "2025-01-01 12:00:01")
             noon_02 noon_02)]
    no_store.

Definition one_pending : world :=
  run_op DEFAULT_CONFIG (OpEnqueue "echo hi" None "job-1" noon) no_store.

Definition leased_once : world :=
  stored (mkData [mkJob "job-1" "exit 1" processing 0 3
                    (str noon) (str noon) (str noon_01)] [] []).

Definition late_50 : datetime := mkDatetime 2025 1 1 23 59 50 0.
Definition late_55 : datetime := mkDatetime 2025 1 1 23 59 55 0.
Definition late_56 : datetime := mkDatetime 2025 1 1 23 59 56 0.
Definition late_59 : datetime := mkDatetime 2025 1 1 23 59 59 0.
Definition next_day_02 : datetime := mkDatetime 2025 1 2 0 0 2 0.

(** Job A is enqueued at 23:59:50 and job B at 23:59:55; A is dispatched
    and fails at 23:59:59, so that its retry is due at 00:00:01 of the next
    day. *)
Definition older_job_delayed : world :=
  run_ops
    [(DEFAULT_CONFIG, OpEnqueue "exit 1" None "job-a" late_50);
     (DEFAULT_CONFIG, OpEnqueue "echo b" None "job-b" late_55);
     (DEFAULT_CONFIG, OpDispatch late_56 late_56);
     (DEFAULT_CONFIG,
      OpFail (mkJob "job-a" "exit 1" processing 0 3
                (str late_50) (str late_50) (str late_56))
             late_59 late_59)]
    no_store.

Definition two_pending : world :=
  run_ops
    [(DEFAULT_CONFIG, OpEnqueue "echo a" None "job-a" late_50);
     (DEFAULT_CONFIG, OpEnqueue "echo b" None "job-b" late_55)]
    no_store.

Definition same_time_clock : list (datetime * datetime) :=
  [(late_56, late_56); (late_56, late_59); (late_56, next_day_02)].

Definition negative_budget : world :=
  run_op DEFAULT_CONFIG (OpEnqueue "echo hi" (Some (-1)) "job-1" noon) no_store.

Definition killed_calls : list (config * op) :=
  [(DEFAULT_CONFIG, OpDispatch noon_01 noon_01);
   (DEFAULT_CONFIG,
    OpFail (mkJob "job-1" "exit 1" processing 0 1 (str noon) (str noon) (str noon_01))
           noon_02 noon_02)].

Definition killed : world :=
  run_ops killed_calls
    (run_op DEFAULT_CONFIG (OpEnqueue "exit 1" (Some 1) "job-1" noon) no_store).

Definition empty_store : world := mkWorld (Document [] [] (Some [])) false.

Definition completed_once : world :=
  stored (mkData
            [mkJob "job-1" "echo hi" completed 0 3 (str noon) (str noon) (str noon_01)]
            [] []).

(** ** Notions used in the further properties *)

(** Lexicographic combination of two comparisons. *)
Definition lex (c1 c2 : comparison) : comparison :=
  match c1 with
  | Eq => c2
  | _ => c1
  end.

(** Python orders two [datetime] values as the tuples (year, month, day,
    hour, minute, second, microsecond); [date_compare] is the order of the
    first three components. *)
Definition date_compare (a b : datetime) : comparison :=
  lex (year a ?= year b) (lex (month a ?= month b) (day a ?= day b)).

Definition datetime_compare (a b : datetime) : comparison :=
  lex (date_compare a b)
    (lex (hour a ?= hour b)
       (lex (minute a ?= minute b)
          (lex (second a ?= second b) (microsecond a ?= microsecond b)))).

(** The timestamps of the job are texts the store wrote: [str] of a
    [datetime] value. *)
Definition created_on (t : datetime) (j : job) : Prop :=
  valid t /\ created_at j = str t.

Definition due_on (t : datetime) (j : job) : Prop :=
  valid t /\ run_at j = str t.

Definition new_year_2026 : datetime := mkDatetime 2026 1 1 0 0 0 0.

(** The jobs a run of calls handed out. *)
Definition returned_jobs (l : list (outcome (option job))) : list job :=
  omap (fun r => match r with Returned o => o | Raised _ => None end) l.

Definition is_pending (j : job) : bool := bool_decide (state j = pending).

(** What no operation changes in a job. *)
Definition same_identity (j j' : job) : Prop :=
  id j' = id j /\ command j' = command j /\
  created_at j' = created_at j /\ max_retries j' = max_retries j.

(** The calls that may change the attempt count of a job. *)
Definition counts_attempts (o : op) : bool :=
  match o with
  | OpFail _ _ _ | OpDlqRetry _ _ _ => true
  | _ => false
  end.

Definition all_jobs (w : world) : list job := jobs (load w) ++ dlq (load w).

(** The jobs after a call, traced back to the jobs before it. *)
Definition traced (cfg : config) (o : op) (w : world) (j' : job) : Prop :=
  (exists j, j ∈ all_jobs w /\ same_identity j j' /\
             (counts_attempts o = false -> attempts j' = attempts j)) \/
  (exists cmd retries job_id now,
     o = OpEnqueue cmd retries job_id now /\
     j' = new_job cfg cmd retries job_id now).

(** The loop of [get_status] over the live jobs. *)
Definition status_counts (js : list job) : gmap string nat :=
  foldl (fun (stats : gmap string nat) j =>
           let st := state_name (state j) in
           <[st := (default 0 (stats !! st) + 1)%nat]> stats)
        ∅ js.

Definition named (k : string) (j : job) : bool :=
  bool_decide (state_name (state j) = k).

Definition worker_pids (w : world) : list Z := pid <$> active_workers (load w).

Definition is_worker (p : Z) (x : worker) : bool := pid x =? p.
Definition is_other_worker (p : Z) (x : worker) : bool := negb (pid x =? p).

(** A store with two records for worker 7, as an older version of the file
    or a hand edit may have left it, and one for worker 8. *)
Definition crowded : world :=
  mkWorld
    (Document [] []
       (Some [mkWorker 7 (str noon); mkWorker 8 (str noon_01); mkWorker 7 (str noon_02)]))
    false.

(** The exception a call ends with, if any. *)
Definition raised_by {A} (r : outcome A * world) : option exn :=
  match r.1 with
  | Raised e => Some e
  | Returned _ => None
  end.

Definition call_error (cfg : config) (o : op) (w : world) : option exn :=
  match o with
  | OpInit => raised_by (init_storage w)
  | OpEnqueue cmd retries job_id now => raised_by (enqueue_job cfg cmd retries job_id now w)
  | OpDispatch now now' => raised_by (get_next_job_for_worker now now' w)
  | OpComplete job_id now => raised_by (update_job_to_completed job_id now w)
  | OpFail jb now now' => raised_by (handle_failed_job cfg jb now now' w)
  | OpDlqRetry job_id now now' => raised_by (retry_dlq_job job_id now now' w)
  | OpStatus now => raised_by (get_status cfg now w)
  | OpList s => raised_by (list_jobs s w)
  | OpRegister p now => raised_by (register_worker p now w)
  | OpUnregister p => raised_by (unregister_worker p w)
  | OpHeartbeat p now now_reg => raised_by (worker_heartbeat p now now_reg w)
  end.

Definition held_store : world :=
  mkWorld (Document [mkJob "job-1" "echo hi" pending 0 3 (str noon) (str noon) (str noon)]
             [] (Some []))
          true.

(** A job that has failed 40 times out of a budget of 100: the next
    backoff, 2^41 seconds, leads past the year 9999. *)
Definition far_backoff : world :=
  stored (mkData [mkJob "job-1" "exit 1" processing 40 100
                    (str noon) (str noon) (str noon_01)] [] []).

(** The subprocess ended with return code 0. *)
Definition succeeded (result : run_result) : bool :=
  match result with
  | Exited returncode => returncode =? 0
  | _ => false
  end.

(** A configuration file that overrides one default and adds a key of its
    own. *)
Definition custom_config : gmap string json :=
  <["max_retries" := JInt 5]> (<["owner" := JStr "ops"]> ∅).

(** The computation gives the lock back, whether it returns or raises. *)
Definition releases {A} (m : M A) : Prop :=
  forall w, lock_held w = false -> lock_held (m w).2 = false.

(** A test that finds every heartbeat overdue, and one that finds none. *)
Definition always_overdue (now last : Z) (interval : Z) : bool := true.
Definition never_overdue (now last : Z) (interval : Z) : bool := false.

Definition idle_pass : pass Z :=
  mkPass 0 (noon_02, noon_02) (noon_02, noon_02) (DEFAULT_CONFIG, DEFAULT_CONFIG)
    (Exited 0) ((noon_02, noon_02), (noon_02, noon_02)) false.

Arguments str : simpl never.
Arguments isoformat : simpl never.
Arguments fromisoformat : simpl never.
Arguments add_seconds : simpl never.
Arguments elapsed_lt : simpl never.
Arguments eligible : simpl never.
Arguments get_next_job_for_worker : simpl never.

(** * Facts about the order on strings *)

Section StringOrder.

Lemma ascii_compare_refl (a : ascii) : Ascii.compare a a = Eq.
Proof. unfold Ascii.compare. apply N.compare_refl. Qed.

Lemma ascii_compare_lt_trans (a b c : ascii) :
  Ascii.compare a b = Lt -> Ascii.compare b c = Lt -> Ascii.compare a c = Lt.
Proof.
  unfold Ascii.compare. rewrite !N.compare_lt_iff. lia.
Qed.

Lemma string_compare_refl (s : string) : String.compare s s = Eq.
Proof.
  induction s as [|a s IH]; simpl; [done|]. by rewrite ascii_compare_refl.
Qed.

Lemma string_compare_lt_trans (s1 s2 s3 : string) :
  String.compare s1 s2 = Lt -> String.compare s2 s3 = Lt ->
  String.compare s1 s3 = Lt.
Proof.
  revert s2 s3. induction s1 as [|a s1 IH]; intros [|b s2] [|c s3]; simpl; try done.
  destruct (Ascii.compare a b) eqn:Hab; try done.
  - apply Ascii.compare_eq_iff in Hab as ->.
    destruct (Ascii.compare b c); try done. apply IH.
  - intros _. destruct (Ascii.compare b c) eqn:Hbc; try done.
    + apply Ascii.compare_eq_iff in Hbc as <-. by rewrite Hab.
    + by rewrite (ascii_compare_lt_trans _ _ _ Hab Hbc).
Qed.

Lemma string_ltb_lt (s1 s2 : string) :
  String.ltb s1 s2 = true <-> String.compare s1 s2 = Lt.
Proof. unfold String.ltb. destruct (String.compare s1 s2); naive_solver. Qed.

Lemma string_leb_le (s1 s2 : string) :
  String.leb s1 s2 = true <-> s1 = s2 \/ String.compare s1 s2 = Lt.
Proof.
  unfold String.leb. destruct (String.compare s1 s2) eqn:H.
  - apply String.compare_eq_iff in H. naive_solver.
  - naive_solver.
  - split; [done|]. intros [->|?]; [|done]. by rewrite string_compare_refl in H.
Qed.

Lemma string_leb_refl (s : string) : String.leb s s = true.
Proof. apply string_leb_le. by left. Qed.

Lemma string_leb_trans (s1 s2 s3 : string) :
  String.leb s1 s2 = true -> String.leb s2 s3 = true -> String.leb s1 s3 = true.
Proof.
  rewrite !string_leb_le. intros [->|H12] [->|H23]; eauto.
  right. eauto using string_compare_lt_trans.
Qed.

Lemma string_ltb_leb (s1 s2 : string) :
  String.ltb s1 s2 = true -> String.leb s1 s2 = true.
Proof. rewrite string_ltb_lt, string_leb_le. eauto. Qed.

(** [not (a < b)] is [b <= a]. *)
Lemma string_ltb_false (s1 s2 : string) :
  String.ltb s1 s2 = false <-> String.leb s2 s1 = true.
Proof.
  unfold String.ltb, String.leb. rewrite (String.compare_antisym s1 s2).
  by destruct (String.compare s2 s1).
Qed.

End StringOrder.

(** * Facts about the dispatch selection *)

Section Selection.

Lemma elem_of_enumerate_from {A} (l : list A) (n i : nat) (x : A) :
  (i, x) ∈ enumerate_from n l <-> (n <= i)%nat /\ l !! (i - n)%nat = Some x.
Proof.
  revert n. induction l as [|y l IH]; intros n; simpl.
  - rewrite elem_of_nil. naive_solver.
  - rewrite elem_of_cons, IH. split.
    + intros [[= -> ->]|[Hle Hl]].
      * split; [lia|]. by replace (n - n)%nat with 0%nat by lia.
      * split; [lia|]. by replace (i - n)%nat with (S (i - S n)) by lia.
    + intros [Hle Hl]. destruct (decide (i = n)) as [->|Hne].
      * left. replace (n - n)%nat with 0%nat in Hl by lia. naive_solver.
      * right. split; [lia|].
        by replace (i - n)%nat with (S (i - S n)) in Hl by lia.
Qed.

Lemma elem_of_enumerate {A} (l : list A) (i : nat) (x : A) :
  (i, x) ∈ enumerate_from 0 l <-> l !! i = Some x.
Proof.
  rewrite elem_of_enumerate_from. replace (i - 0)%nat with i by lia.
  split; [naive_solver|]. split; [lia|done].
Qed.

(** Positions grow along [enumerate]. *)
Lemma enumerate_from_split {A} (l : list A) n l1 i x l2 :
  enumerate_from n l = l1 ++ (i, x) :: l2 ->
  Forall (fun y => (y.1 < i)%nat) l1 /\ Forall (fun y => (i < y.1)%nat) l2.
Proof.
  revert n l1. induction l as [|y l IH]; intros n l1; simpl.
  - by destruct l1.
  - destruct l1 as [|z l1]; simpl.
    + intros [= <- <- <-]. split; [constructor|].
      apply Forall_forall. intros [k v] Hk%elem_of_enumerate_from. simpl. lia.
    + intros [= <- Hl]. destruct (IH _ _ Hl) as [H1 H2]. split; [|done].
      constructor; [|done]. simpl.
      assert ((i, x) ∈ enumerate_from (S n) l) as Hin.
      { rewrite Hl. set_solver. }
      apply elem_of_enumerate_from in Hin. lia.
Qed.

Lemma filter_split {A} (f : A -> bool) (l : list A) l1 x l2 :
  List.filter f l = l1 ++ x :: l2 ->
  exists l1' l2', l = l1' ++ x :: l2' /\ l1 = List.filter f l1' /\
                  l2 = List.filter f l2' /\ f x = true.
Proof.
  revert l1. induction l as [|y l IH]; intros l1; simpl.
  - by destruct l1.
  - destruct (f y) eqn:Hy.
    + destruct l1 as [|z l1]; simpl.
      * intros [= -> <-]. exists [], l. by rewrite Hy.
      * intros [= <- Hl]. destruct (IH _ Hl) as (l1' & l2' & -> & -> & -> & Hx).
        exists (y :: l1'), l2'. simpl. by rewrite Hy.
    + intros Hl. destruct (IH _ Hl) as (l1' & l2' & -> & -> & -> & Hx).
      exists (y :: l1'), l2'. simpl. by rewrite Hy.
Qed.

Lemma elem_of_List_filter {A} (f : A -> bool) (l : list A) (x : A) :
  x ∈ List.filter f l <-> x ∈ l /\ f x = true.
Proof. rewrite !list_elem_of_In. apply filter_In. Qed.

Lemma sort_by_created_at_nil l : sort_by_created_at l = [] -> l = [].
Proof.
  destruct l as [|x l]; [done|]. unfold sort_by_created_at. simpl.
  by destruct (foldr insert_by_created_at [] l) as [|y r];
    simpl; [|destruct (String.ltb _ _)].
Qed.

(** The head of the sorted list is the first, in the original order, of the
    elements with the least key. *)
Lemma sort_by_created_at_head l x r :
  sort_by_created_at l = x :: r ->
  exists l1 l2, l = l1 ++ x :: l2 /\
                Forall (key_lt x) l1 /\ Forall (key_le x) l2.
Proof.
  revert x r. induction l as [|a l IH]; intros x r; [done|].
  unfold sort_by_created_at. simpl. fold (sort_by_created_at l).
  destruct (sort_by_created_at l) as [|y s] eqn:Hs.
  - apply sort_by_created_at_nil in Hs as ->. simpl. intros [= <- <-].
    exists [], []. by repeat constructor.
  - destruct (IH _ _ eq_refl) as (l1 & l2 & -> & H1 & H2). simpl.
    destruct (String.ltb (created_at y.2) (created_at a.2)) eqn:Hya.
    + intros [= <- <-]. exists (a :: l1), l2. split_and!; [done| |done].
      by constructor.
    + intros [= <- <-]. exists [], (l1 ++ y :: l2).
      apply string_ltb_false in Hya.
      split_and!; [done|constructor|].
      assert (forall z, key_le y z -> key_le a z) as Hmono.
      { unfold key_le. eauto using string_leb_trans. }
      apply Forall_app. split; [|constructor].
      * eapply Forall_impl; [exact H1|]. intros z Hz. apply Hmono.
        by apply string_ltb_leb.
      * done.
      * eapply Forall_impl; [exact H2|]. done.
Qed.

Lemma candidates_nil now js :
  candidates now js = [] <->
  forall k jk, js !! k = Some jk -> eligible now jk = false.
Proof.
  unfold candidates. split.
  - intros H%sort_by_created_at_nil k jk Hk.
    destruct (eligible now jk) eqn:He; [|done].
    assert ((k, jk) ∈ List.filter (fun x => eligible now x.2) (enumerate_from 0 js)) as Hin.
    { apply elem_of_List_filter. split; [by apply elem_of_enumerate|done]. }
    rewrite H in Hin. by apply elem_of_nil in Hin.
  - intros H.
    destruct (sort_by_created_at _) as [|[i j] r] eqn:Hs; [done|].
    apply sort_by_created_at_head in Hs as (l1 & l2 & Hs & _).
    assert ((i, j) ∈ List.filter (fun x => eligible now x.2) (enumerate_from 0 js)) as Hin.
    { rewrite Hs. set_solver. }
    apply elem_of_List_filter in Hin as [Hin He]. apply elem_of_enumerate in Hin.
    simpl in He. by rewrite (H _ _ Hin) in He.
Qed.

Lemma candidates_head now js i j r :
  candidates now js = (i, j) :: r ->
  js !! i = Some j /\ eligible now j = true /\
  forall k jk, js !! k = Some jk -> eligible now jk = true ->
    String.leb (created_at j) (created_at jk) = true /\
    ((k < i)%nat -> String.ltb (created_at j) (created_at jk) = true).
Proof.
  unfold candidates. intros Hs.
  apply sort_by_created_at_head in Hs as (l1 & l2 & Hs & H1 & H2).
  apply filter_split in Hs as (l1' & l2' & He & -> & -> & Hij).
  pose proof (enumerate_from_split _ _ _ _ _ _ He) as [Hlt Hgt].
  assert (js !! i = Some j) as Hi.
  { apply elem_of_enumerate. rewrite He. set_solver. }
  split_and!; [done..|]. intros k jk Hk Hek.
  apply elem_of_enumerate in Hk. rewrite He in Hk.
  rewrite Forall_forall in H1, H2, Hlt, Hgt.
  apply elem_of_app in Hk as [Hk|Hk]; [|apply elem_of_cons in Hk as [Hk|Hk]].
  - assert (key_lt (i, j) (k, jk)) as Hkey.
    { apply H1, elem_of_List_filter. done. }
    split; [by apply string_ltb_leb|done].
  - injection Hk as -> ->. split; [apply string_leb_refl|lia].
  - split; [apply (H2 (k, jk)), elem_of_List_filter; done|].
    intros Hki. apply Hgt in Hk. simpl in Hk. lia.
Qed.

End Selection.

(** * What each operation does when called with the lock free *)

Section Runs.

Lemma load_stored d : load (stored d) = d.
Proof. by destruct d. Qed.

Lemma lock_held_stored d : lock_held (stored d) = false.
Proof. done. Qed.

Lemma _read_data_run w : _read_data w = (Returned (load w), w).
Proof.
  unfold _read_data, try_except, bind, open_and_load, ret, load.
  by destruct w as [[| |js dl [ws|]] lk].
Qed.

Ltac run_free w H :=
  destruct w as [f lk]; simpl in H; subst lk;
  unfold with_lock, bind; rewrite ?_read_data_run;
  unfold ret, raise, _write_data, load; simpl.

Lemma init_storage_run w :
  lock_held w = false ->
  init_storage w =
    (Returned tt,
     match storage_file w with
     | Document _ _ _ => w
     | _ => stored empty_data
     end).
Proof.
  intros H. unfold init_storage, try_except, open_and_load, bind.
  run_free w H. by destruct f.
Qed.

Lemma enqueue_job_run cfg cmd retries job_id now w :
  lock_held w = false ->
  enqueue_job cfg cmd retries job_id now w =
    (Returned job_id,
     stored (set_jobs
               (jobs (load w) ++
                [mkJob job_id cmd pending 0
                   (match retries with Some r => r | None => cfg_max_retries cfg end)
                   (str now) (str now) (str now)])
               (load w))).
Proof. intros H. unfold enqueue_job. by run_free w H. Qed.

Lemma get_next_job_for_worker_run now now' w :
  lock_held w = false ->
  get_next_job_for_worker now now' w =
    match candidates now (jobs (load w)) with
    | (i, j) :: _ =>
        let j' := set_updated_at (str now') (set_state processing j) in
        (Returned (Some j'), stored (set_jobs (<[i := j']> (jobs (load w))) (load w)))
    | [] => (Returned None, w)
    end.
Proof.
  intros H. unfold get_next_job_for_worker, candidates. run_free w H.
  by destruct (sort_by_created_at _) as [|[i j] r].
Qed.

Lemma update_job_to_completed_run job_id now w :
  lock_held w = false ->
  update_job_to_completed job_id now w =
    match list_find (fun j => id j = job_id) (jobs (load w)) with
    | Some (i, j) =>
        (Returned tt,
         stored (set_jobs
                   (<[i := set_updated_at (str now) (set_state completed j)]>
                      (jobs (load w)))
                   (load w)))
    | None => (Returned tt, w)
    end.
Proof.
  intros H. unfold update_job_to_completed. run_free w H.
  by destruct (list_find _ _) as [[i j]|].
Qed.

Lemma handle_failed_job_run cfg jb now now' w :
  lock_held w = false ->
  handle_failed_job cfg jb now now' w =
    match list_find (fun j => id j = id jb) (jobs (load w)) with
    | None => (Returned tt, w)
    | Some (i, j) =>
        let j1 := set_attempts (attempts j + 1) j in
        if max_retries j <=? Z.of_nat (attempts j + 1) then
          (Returned tt,
           stored (set_dlq (dlq (load w) ++ [set_state dead j1])
                     (set_jobs (delete i (jobs (load w))) (load w))))
        else
          match add_seconds now (cfg_backoff_base cfg ^ Z.of_nat (attempts j + 1)) with
          | None => (Raised OverflowError, w)
          | Some t =>
              (Returned tt,
               stored (set_jobs
                         (<[i := set_updated_at (str now')
                                   (set_state pending (set_run_at (str t) j1))]>
                            (jobs (load w)))
                         (load w)))
          end
    end.
Proof.
  intros H. unfold handle_failed_job. run_free w H.
  destruct (list_find _ _) as [[i j]|]; [|done]. simpl.
  destruct (max_retries j <=? _); [done|].
  by destruct (add_seconds _ _).
Qed.

Lemma retry_dlq_job_run job_id now now' w :
  lock_held w = false ->
  retry_dlq_job job_id now now' w =
    match list_find (fun j => id j = job_id) (dlq (load w)) with
    | None => (Returned false, w)
    | Some (i, j) =>
        (Returned true,
         stored (set_jobs
                   (jobs (load w) ++
                    [set_updated_at (str now')
                       (set_run_at (str now)
                          (set_attempts 0 (set_state pending j)))])
                   (set_dlq (delete i (dlq (load w))) (load w))))
    end.
Proof.
  intros H. unfold retry_dlq_job. run_free w H.
  by destruct (list_find _ _) as [[i j]|].
Qed.

Lemma get_status_world cfg now w :
  lock_held w = false ->
  (get_status cfg now w).2 = stored (_get_active_worker_count cfg (load w) now).1.
Proof. intros H. unfold get_status. by run_free w H. Qed.

Lemma list_jobs_world s w : lock_held w = false -> (list_jobs s w).2 = w.
Proof.
  intros H. unfold list_jobs. run_free w H. by destruct (bool_decide _).
Qed.

Lemma register_worker_run p now w :
  lock_held w = false ->
  register_worker p now w =
    (Returned tt,
     stored (set_active_workers
               (List.filter (fun x => negb (pid x =? p)) (active_workers (load w))
                ++ [mkWorker p (str now)])
               (load w))).
Proof. intros H. unfold register_worker. by run_free w H. Qed.

Lemma unregister_worker_run p w :
  lock_held w = false ->
  unregister_worker p w =
    (Returned tt,
     stored (set_active_workers
               (List.filter (fun x => negb (pid x =? p)) (active_workers (load w)))
               (load w))).
Proof. intros H. unfold unregister_worker. by run_free w H. Qed.

(** The nested [register_worker] finds the lock held by its own caller. *)
Lemma worker_heartbeat_run p now now_reg w :
  lock_held w = false ->
  worker_heartbeat p now now_reg w =
    match list_find (fun x => pid x = p) (active_workers (load w)) with
    | Some (i, x) =>
        (Returned tt,
         stored (set_active_workers
                   (<[i := mkWorker (pid x) (str now)]> (active_workers (load w)))
                   (load w)))
    | None => (Raised LockTimeout, stored (load w))
    end.
Proof.
  intros H. unfold worker_heartbeat, register_worker. run_free w H.
  by destruct (list_find _ _) as [[i x]|].
Qed.

End Runs.

(** * The shapes a snapshot can change by *)

Section Effects.

Lemma run_op_lock_free cfg o w :
  lock_held w = false -> lock_held (run_op cfg o w) = false.
Proof.
  intros H. destruct o; simpl.
  - rewrite init_storage_run by done. simpl. by destruct (storage_file w).
  - by rewrite enqueue_job_run.
  - rewrite get_next_job_for_worker_run by done.
    by destruct (candidates _ _) as [|[??]?].
  - rewrite update_job_to_completed_run by done.
    by destruct (list_find _ _) as [[??]|].
  - rewrite handle_failed_job_run by done.
    destruct (list_find _ _) as [[??]|]; [|done]. simpl.
    destruct (_ <=? _); [done|]. by destruct (add_seconds _ _).
  - rewrite retry_dlq_job_run by done.
    by destruct (list_find _ _) as [[??]|].
  - by rewrite get_status_world.
  - by rewrite list_jobs_world.
  - by rewrite register_worker_run.
  - by rewrite unregister_worker_run.
  - rewrite worker_heartbeat_run by done.
    by destruct (list_find _ _) as [[??]|].
Qed.

Lemma run_op_enqueue cfg cmd retries job_id now w :
  lock_held w = false ->
  load (run_op cfg (OpEnqueue cmd retries job_id now) w) =
    set_jobs (jobs (load w) ++ [new_job cfg cmd retries job_id now]) (load w).
Proof. intros H. simpl. rewrite enqueue_job_run by done. apply load_stored. Qed.

Lemma run_op_change cfg o w :
  lock_held w = false ->
  match o with
  | OpEnqueue _ _ _ _ => True
  | _ => change (load w) (load (run_op cfg o w))
  end.
Proof.
  intros H. destruct o; simpl; [|done|..].
  - rewrite init_storage_run by done. destruct w as [[| |js dl ws] lk]; simpl;
      apply change_none.
  - rewrite get_next_job_for_worker_run by done.
    destruct (candidates _ _) as [|[i j] r] eqn:Hc; simpl; [apply change_none|].
    apply candidates_head in Hc as (Hi & He & _). rewrite load_stored.
    eapply change_update; [exact Hi|done..|]. right; left.
    unfold eligible in He. apply andb_true_iff in He as [He _].
    by apply bool_decide_eq_true in He.
  - rewrite update_job_to_completed_run by done.
    destruct (list_find _ _) as [[i j]|] eqn:Hf; simpl; [|apply change_none].
    apply list_find_Some in Hf as (Hi & _). rewrite load_stored.
    eapply change_update; [exact Hi|done..|]. by left.
  - rewrite handle_failed_job_run by done.
    destruct (list_find _ _) as [[i j]|] eqn:Hf; simpl; [|apply change_none].
    apply list_find_Some in Hf as (Hi & _).
    destruct (max_retries j <=? _) eqn:Hm; simpl.
    + rewrite load_stored. by eapply change_kill; [exact Hi|..].
    + destruct (add_seconds _ _); simpl; [|apply change_none].
      rewrite load_stored. eapply change_update; [exact Hi|done..|].
      right; right. apply Z.leb_gt in Hm. exact Hm.
  - rewrite retry_dlq_job_run by done.
    destruct (list_find _ _) as [[i j]|] eqn:Hf; simpl; [|apply change_none].
    apply list_find_Some in Hf as (Hi & _). rewrite load_stored.
    by eapply change_revive; [exact Hi|..].
  - rewrite get_status_world, load_stored by done. apply change_workers.
  - rewrite list_jobs_world by done. apply change_none.
  - rewrite register_worker_run by done. simpl. rewrite load_stored.
    apply change_workers.
  - rewrite unregister_worker_run by done. simpl. rewrite load_stored.
    apply change_workers.
  - rewrite worker_heartbeat_run by done.
    destruct (list_find _ _) as [[i x]|]; simpl; rewrite load_stored;
      [apply change_workers|apply change_none].
Qed.

(** No change adds, drops or duplicates an identifier. *)
Lemma change_all_ids d d' : change d d' -> all_ids d' ≡ₚ all_ids d.
Proof.
  unfold all_ids.
  intros Hc.
  destruct Hc as [d|d ws|d i j j' Hi Hid _ _|d i j j' Hi Hid _ _|d i j j' Hi Hid _ _ _];
    simpl; try done.
  - rewrite list_fmap_insert, Hid.
    rewrite list_insert_id; [done|]. by rewrite list_lookup_fmap, Hi.
  - rewrite (delete_Permutation (jobs d) i j Hi) at 2.
    rewrite fmap_app, fmap_cons. simpl. rewrite Hid.
    by rewrite (assoc_L (++)), <-Permutation_cons_append.
  - rewrite (delete_Permutation (dlq d) i j Hi) at 2.
    rewrite fmap_app, !fmap_cons. simpl. rewrite Hid.
    by rewrite <-(assoc_L (++)).
Qed.


End Effects.

(** * Invariants of reachable worlds *)

Section Invariants.

Lemma initial_lock_free w : initial w -> lock_held w = false.
Proof. by intros [? _]. Qed.

Lemma reachable_by_lock_free ok w : reachable_by ok w -> lock_held w = false.
Proof.
  induction 1 as [w Hw|w cfg o _ IH _]; [by apply initial_lock_free|].
  by apply run_op_lock_free.
Qed.


(** Identifiers stay pairwise distinct as long as [uuid4] is fresh. *)
Lemma run_op_NoDup_ids cfg o w :
  lock_held w = false -> fresh_uuid w cfg o ->
  NoDup (all_ids (load w)) -> NoDup (all_ids (load (run_op cfg o w))).
Proof.
  intros Hl Hf Hn. pose proof (run_op_change cfg o w Hl) as Hc.
  destruct o; try (by rewrite (change_all_ids _ _ Hc)).
  rewrite run_op_enqueue by done. simpl in Hf. unfold all_ids in *. simpl.
  rewrite fmap_app. simpl.
  rewrite <-(assoc_L (++)). simpl. rewrite <-Permutation_middle.
  by constructor.
Qed.

Lemma reachable_NoDup_ids w : reachable w -> NoDup (all_ids (load w)).
Proof.
  induction 1 as [w (_ & Hj & Hd)|w cfg o Hr IH Hok].
  - unfold all_ids. rewrite Hj, Hd. constructor.
  - apply run_op_NoDup_ids; [by eapply reachable_by_lock_free|done..].
Qed.

Lemma run_ops_lock_free calls w :
  lock_held w = false -> lock_held (run_ops calls w) = false.
Proof.
  revert w. induction calls as [|[cfg o] calls IH]; intros w Hl; [done|].
  simpl. by apply IH, run_op_lock_free.
Qed.


Lemma change_within_budget d d' :
  change d d' -> within_budget d -> within_budget d'.
Proof.
  intros Hc [Ha Hm].
  destruct Hc as [d|d ws|d i j j' Hi Hid Hmx Hst|d i j j' Hi Hid Hmx Hst
                 |d i j j' Hi Hid Hmx Hat Hst]; [done|done|..].
  - assert (j ∈ jobs d) as Hj by by eapply list_elem_of_lookup_2.
    assert (forall x, x ∈ <[i:=j']> (jobs d) -> x = j' \/ x ∈ jobs d) as Hins.
    { intros x (k & Hk)%list_elem_of_lookup_1.
      apply list_lookup_insert_Some in Hk as [(_ & -> & _)|[_ Hk]]; [by left|].
      right. by eapply list_elem_of_lookup_2. }
    split; simpl.
    + intros x [->|Hx]%Hins Hs; [|by apply Ha].
      destruct Hst as [Hst|[[Hp Heq]|Hlt]].
      * rewrite Hst in Hs. by destruct Hs.
      * rewrite Heq, Hmx. apply Ha; auto.
      * lia.
    + intros x [[->|Hx]%Hins|Hx]%elem_of_app.
      * rewrite Hmx. apply Hm. set_solver.
      * apply Hm. set_solver.
      * apply Hm. set_solver.
  - assert (j ∈ jobs d) as Hj by by eapply list_elem_of_lookup_2.
    split; simpl.
    + intros x Hx%list_elem_of_delete_inv. by apply Ha.
    + intros x [Hx%list_elem_of_delete_inv|[Hx|Hx]%elem_of_app]%elem_of_app.
      * apply Hm. set_solver.
      * apply Hm. set_solver.
      * apply list_elem_of_singleton in Hx as ->. rewrite Hmx. apply Hm. set_solver.
  - assert (j ∈ dlq d) as Hj by by eapply list_elem_of_lookup_2.
    assert (0 <= max_retries j') as Hj'.
    { rewrite Hmx. apply Hm. set_solver. }
    split; simpl.
    + intros x [Hx|Hx]%elem_of_app Hs; [by apply Ha|].
      apply list_elem_of_singleton in Hx as ->. rewrite Hat. simpl. lia.
    + intros x [[Hx|Hx]%elem_of_app|Hx%list_elem_of_delete_inv]%elem_of_app.
      * apply Hm. set_solver.
      * by apply list_elem_of_singleton in Hx as ->.
      * apply Hm. set_solver.
Qed.

Lemma run_op_within_budget cfg o w :
  lock_held w = false -> nonneg_retries w cfg o ->
  within_budget (load w) -> within_budget (load (run_op cfg o w)).
Proof.
  intros Hl Hok Hb. pose proof (run_op_change cfg o w Hl) as Hc.
  destruct o; try (by eapply change_within_budget).
  rewrite run_op_enqueue by done. destruct Hb as [Ha Hm].
  assert (0 <= max_retries (new_job cfg cmd retries job_id now)) as Hnew.
  { simpl in *. by destruct retries. }
  split; simpl.
  - intros x [Hx|Hx]%elem_of_app Hs; [by apply Ha|].
    apply list_elem_of_singleton in Hx as ->. exact Hnew.
  - intros x [[Hx|Hx]%elem_of_app|Hx]%elem_of_app.
    + apply Hm. set_solver.
    + by apply list_elem_of_singleton in Hx as ->.
    + apply Hm. set_solver.
Qed.

Lemma reachable_within_budget w :
  reachable_by nonneg_retries w -> within_budget (load w).
Proof.
  induction 1 as [w (_ & Hj & Hd)|w cfg o Hr IH Hok].
  - split; rewrite ?Hj, ?Hd; intros j Hx; by apply elem_of_nil in Hx.
  - apply run_op_within_budget; [by eapply reachable_by_lock_free|done..].
Qed.

End Invariants.

(** * Dispatch *)

Section Dispatch.

Lemma eligible_pending now j : eligible now j = true -> state j = pending.
Proof.
  unfold eligible. intros [H _]%andb_true_iff. by apply bool_decide_eq_true in H.
Qed.

Lemma eligible_run_at now j :
  eligible now j = true -> String.leb (run_at j) (isoformat now) = true.
Proof. unfold eligible. by intros [_ H]%andb_true_iff. Qed.

(** The two results a dispatch call can have. *)
Lemma dispatch_cases now now' w :
  lock_held w = false ->
  (exists i j,
     jobs (load w) !! i = Some j /\ eligible now j = true /\
     (forall k jk, jobs (load w) !! k = Some jk -> eligible now jk = true ->
        created_le j jk /\
        ((k < i)%nat -> String.ltb (created_at j) (created_at jk) = true)) /\
     get_next_job_for_worker now now' w =
       (Returned (Some (leased now' j)),
        stored (set_jobs (<[i := leased now' j]> (jobs (load w))) (load w)))) \/
  ((forall j, j ∈ jobs (load w) -> eligible now j = false) /\
   get_next_job_for_worker now now' w = (Returned None, w)).
Proof.
  intros Hl. rewrite get_next_job_for_worker_run by done.
  destruct (candidates now (jobs (load w))) as [|[i j] r] eqn:Hc.
  - right. split; [|done]. intros j (k & Hk)%list_elem_of_lookup_1.
    by eapply candidates_nil.
  - left. exists i, j. apply candidates_head in Hc as (Hi & He & Hmin).
    split_and!; done.
Qed.

Lemma created_le_trans a b c : created_le a b -> created_le b c -> created_le a c.
Proof. apply string_leb_trans. Qed.


End Dispatch.

(** * The two text forms of a timestamp *)

Section TextForms.

Lemma string_compare_app_prefix (p a b : string) :
  String.compare (p +:+ a) (p +:+ b) = String.compare a b.
Proof.
  induction p as [|c p IH]; simpl; [done|]. by rewrite ascii_compare_refl.
Qed.

(** The date is all that the dispatch test compares when [run_at] was
    written by the store: on the day of [run_at] itself, and on any later
    day, the job is due whatever the time of day. *)
Lemma eligible_same_day now d j :
  state j = pending -> run_at j = str d ->
  year d = year now -> month d = month now -> day d = day now ->
  eligible now j = true.
Proof.
  intros Hs Hr Hy Hm Hd. unfold eligible. rewrite Hs, Hr.
  rewrite bool_decide_eq_true_2 by done. simpl.
  unfold str, isoformat, isoformat_sep, String.leb. rewrite Hy, Hm, Hd.
  by rewrite !string_compare_app_prefix.
Qed.

Lemma digit_val_digit k : digit_val (digit k) = Some (k mod 10).
Proof.
  unfold digit_val, digit.
  pose proof (Z.mod_pos_bound k 10 ltac:(lia)) as Hr.
  rewrite nat_ascii_embedding by lia.
  replace (Z.of_nat (48 + Z.to_nat (k mod 10))) with (48 + k mod 10) by lia.
  replace (48 <=? 48 + k mod 10) with true by (symmetry; apply Z.leb_le; lia).
  replace (48 + k mod 10 <=? 57) with true by (symmetry; apply Z.leb_le; lia).
  simpl. f_equal. lia.
Qed.

Lemma append_cons c (s r : string) : String c s +:+ r = String c (s +:+ r).
Proof. done. Qed.

Lemma append_nil_l (r : string) : "" +:+ r = r.
Proof. done. Qed.

Lemma append_nil_r (s : string) : s +:+ "" = s.
Proof. induction s as [|c s IH]; [done|]. by rewrite append_cons, IH. Qed.

Lemma expect_same c s : expect c (String c s) = Some s.
Proof. unfold expect. by rewrite Ascii.eqb_refl. Qed.

Lemma read_digits_zfill w n acc rest :
  read_digits w acc (zfill w n +:+ rest) =
    Some (acc * 10 ^ Z.of_nat w + n mod 10 ^ Z.of_nat w, rest).
Proof.
  revert acc. induction w as [|w IH]; intros acc.
  - cbn [zfill read_digits]. rewrite append_nil_l, Z.mod_1_r. f_equal. f_equal.
    simpl. lia.
  - cbn [zfill]. rewrite append_cons. cbn [read_digits].
    rewrite digit_val_digit, IH.
    f_equal. f_equal. rewrite Nat2Z.inj_succ, Z.pow_succ_r by lia.
    assert (0 < 10 ^ Z.of_nat w) as Hp by (apply Z.pow_pos_nonneg; lia).
    rewrite (Z.mul_comm 10), Z.rem_mul_r by lia. lia.
Qed.

Lemma read_digits_zfill_small w n rest :
  0 <= n < 10 ^ Z.of_nat w ->
  read_digits w 0 (zfill w n +:+ rest) = Some (n, rest).
Proof. intros H. rewrite read_digits_zfill. by rewrite Z.mod_small. Qed.

Lemma read_digits_zfill_end w n :
  0 <= n < 10 ^ Z.of_nat w ->
  read_digits w 0 (zfill w n) = Some (n, EmptyString).
Proof.
  intros H. rewrite <-(append_nil_r (zfill w n)). by apply read_digits_zfill_small.
Qed.

Lemma validb_valid d : valid d -> validb d = true.
Proof.
  unfold valid, validb. intros (Hy & Hm & Hd & Hh & Hmi & Hs & Hus).
  repeat (apply andb_true_intro; split);
    first [apply Z.leb_le|apply Z.ltb_lt]; lia.
Qed.

(** What the store writes for a timestamp, [fromisoformat] reads back. *)
Lemma fromisoformat_str d : valid d -> fromisoformat (str d) = Some d.
Proof.
  intros Hv. pose proof (validb_valid d Hv) as Hvb.
  destruct Hv as (Hy & Hm & Hd & Hh & Hmi & Hs & Hus).
  destruct d as [y m dd h mi s us].
  cbn [year month day hour minute second microsecond] in *.
  assert (_days_in_month y m <= 31) as Hdim.
  { unfold _days_in_month, _DAYS_IN_MONTH.
    repeat match goal with |- context [if ?b then _ else _] => destruct b end; lia. }
  unfold fromisoformat, str, isoformat_sep.
  cbn [year month day hour minute second microsecond].
  rewrite read_digits_zfill_small by (simpl; lia). cbn [mbind option_bind].
  rewrite append_cons, append_nil_l, expect_same. cbn [mbind option_bind].
  rewrite read_digits_zfill_small by (simpl; lia). cbn [mbind option_bind].
  rewrite append_cons, append_nil_l, expect_same. cbn [mbind option_bind].
  rewrite read_digits_zfill_small by (simpl; lia). cbn [mbind option_bind skip_char].
  rewrite read_digits_zfill_small by (simpl; lia). cbn [mbind option_bind].
  rewrite append_cons, append_nil_l, expect_same. cbn [mbind option_bind].
  rewrite read_digits_zfill_small by (simpl; lia). cbn [mbind option_bind].
  rewrite append_cons, append_nil_l, expect_same. cbn [mbind option_bind].
  destruct (us =? 0) eqn:Hz.
  - apply Z.eqb_eq in Hz as ->.
    rewrite read_digits_zfill_small by (simpl; lia). cbn [mbind option_bind].
    by rewrite Hvb.
  - rewrite read_digits_zfill_small by (simpl; lia). cbn [mbind option_bind].
    rewrite append_cons, append_nil_l, expect_same. cbn [mbind option_bind].
    rewrite read_digits_zfill_end by (simpl; lia). cbn [mbind option_bind].
    by rewrite Hvb.
Qed.

End TextForms.

(** * Worker liveness *)

Section Liveness.

(** A status query drops the records that are not alive, persists what is
    left and reports its length. *)
Lemma get_status_purge cfg now w :
  lock_held w = false ->
  exists stats,
    get_status cfg now w =
      (Returned stats,
       stored (set_active_workers
                 (List.filter (alive cfg now) (active_workers (load w))) (load w))) /\
    stats !! "active_workers" =
      Some (length (List.filter (alive cfg now) (active_workers (load w)))).
Proof.
  intros Hl. destruct w as [f lk]. simpl in Hl. subst lk.
  unfold get_status, with_lock, bind. rewrite _read_data_run.
  unfold ret, _write_data, _get_active_worker_count, load.
  cbn [storage_file lock_held fst snd]. eexists. split; [reflexivity|].
  apply lookup_insert_eq.
Qed.

(** A record written from a clock reading [t] is alive at [now] exactly
    while fewer than [worker_timeout_seconds] have passed since [t]. *)
Lemma alive_written cfg now p t :
  valid t ->
  alive cfg now (mkWorker p (str t)) = true <->
  to_microseconds now - to_microseconds t < cfg_worker_timeout_seconds cfg * 1000000.
Proof.
  intros Hv. unfold alive. cbn [last_heartbeat]. rewrite fromisoformat_str by done.
  unfold elapsed_lt. apply Z.ltb_lt.
Qed.

(** After [register_worker], the next status query keeps and counts the
    worker exactly while its record is younger than the timeout. *)
Lemma registered_worker_counted cfg p t now w :
  valid t -> lock_held w = false ->
  mkWorker p (str t) ∈
    active_workers (load (get_status cfg now (register_worker p t w).2).2) <->
  to_microseconds now - to_microseconds t < cfg_worker_timeout_seconds cfg * 1000000.
Proof.
  intros Hv Hl. rewrite register_worker_run by done. cbn [snd].
  destruct (get_status_purge cfg now (stored (set_active_workers
    (List.filter (fun x => negb (pid x =? p)) (active_workers (load w))
     ++ [mkWorker p (str t)]) (load w))) eq_refl) as (stats & -> & _).
  cbn [snd]. rewrite !load_stored. cbn [active_workers set_active_workers].
  rewrite elem_of_List_filter, <-(alive_written cfg now p t Hv). split.
  - by intros [_ H].
  - intros H. split; [|done]. apply elem_of_app. right. apply list_elem_of_here.
Qed.

End Liveness.

(** * The claims *)

(** ** C1 *)

Example failed_once_snapshot :
  storage_file failed_once =
    Document
      [mkJob "job-1" "exit 1" pending 1 3
         "2025-01-01 12:00:04" "2025-01-01 12:00:00" "2025-01-01 12:00:02"]
      [] (Some []).
Proof. vm_compute. reflexivity. Qed.

(** C1: dispatch is meant to hand out a pending job only once its [run_at]
    has come.  Here the job failed at 12:00:02 and was rescheduled to
    12:00:04, yet a dispatch call made at 12:00:02 returns it: the stored
    text ["2025-01-01 12:00:04"] is compared with ["2025-01-01T12:00:02"],
    and the space sorts before the ["T"]. *)
Theorem dispatch_before_run_at :
  get_next_job_for_worker noon_02 noon_02 failed_once =
    (Returned
       (Some (mkJob "job-1" "exit 1" processing 1 3
                (str noon_04) "2025-01-01 12:00:00" "2025-01-01 12:00:02")),
     mkWorld
       (Document
          [mkJob "job-1" "exit 1" processing 1 3
             (str noon_04) "2025-01-01 12:00:00" "2025-01-01 12:00:02"]
          [] (Some []))
       false)
  /\ to_microseconds noon_02 < to_microseconds noon_04.
Proof. split; vm_compute; reflexivity. Qed.

(** ** C2 *)

Lemma no_store_initial : initial no_store.
Proof. done. Qed.

Lemma one_pending_reachable : reachable one_pending.
Proof.
  apply reachable_step; [apply reachable_initial, no_store_initial|].
  simpl. apply not_elem_of_nil.
Qed.

(** C2: once a dispatch call on a reachable store has returned a job, that
    job is stored as processing, and the next dispatch call on the
    resulting store, whatever its clock readings, returns no job with the
    same id. *)
Theorem lease_exclusivity w now1 now1' j w' now2 now2' :
  reachable w ->
  get_next_job_for_worker now1 now1' w = (Returned (Some j), w') ->
  state j = processing /\ j ∈ jobs (load w') /\
  forall j', (get_next_job_for_worker now2 now2' w').1 = Returned (Some j') ->
             id j' <> id j.
Proof.
  intros Hr Hd. pose proof (reachable_by_lock_free _ _ Hr) as Hl.
  pose proof (reachable_NoDup_ids _ Hr) as Hn.
  destruct (dispatch_cases now1 now1' w Hl)
    as [(i & j0 & Hi & He & _ & Heq)|[_ Heq]]; rewrite Heq in Hd; [|done].
  injection Hd as <- <-. rewrite load_stored. simpl.
  split_and!; [done| |].
  { apply list_elem_of_insert. by eapply lookup_lt_Some. }
  intros j' Hd2. set (w' := stored _) in Hd2.
  destruct (dispatch_cases now2 now2' w' eq_refl)
    as [(i' & j1 & Hi' & He' & _ & Heq')|[_ Heq']];
    rewrite Heq' in Hd2; [|done].
  injection Hd2 as <-. simpl. unfold w' in Hi'. rewrite load_stored in Hi'.
  simpl in Hi'.
  apply list_lookup_insert_Some in Hi' as [(_ & <- & _)|[Hne Hi']].
  { by apply eligible_pending in He'. }
  intros Hid. apply Hne.
  unfold all_ids in Hn. apply NoDup_app in Hn as (Hn & _ & _).
  apply (proj1 (NoDup_alt _) Hn i i' (id j0)); rewrite list_lookup_fmap.
  - by rewrite Hi.
  - rewrite Hi'. simpl. by rewrite Hid.
Qed.

Lemma lease_exclusivity_witness :
  reachable one_pending /\
  get_next_job_for_worker noon_01 noon_01 one_pending =
    (Returned (Some (mkJob "job-1" "echo hi" processing 0 3
                       (str noon) (str noon) (str noon_01))),
     stored (mkData [mkJob "job-1" "echo hi" processing 0 3
                       (str noon) (str noon) (str noon_01)] [] [])) /\
  forall j',
    (get_next_job_for_worker noon_02 noon_02
       (stored (mkData [mkJob "job-1" "echo hi" processing 0 3
                          (str noon) (str noon) (str noon_01)] [] []))).1
      = Returned (Some j') ->
    id j' <> "job-1".
Proof.
  assert (get_next_job_for_worker noon_01 noon_01 one_pending =
    (Returned (Some (mkJob "job-1" "echo hi" processing 0 3
                       (str noon) (str noon) (str noon_01))),
     stored (mkData [mkJob "job-1" "echo hi" processing 0 3
                       (str noon) (str noon) (str noon_01)] [] []))) as E.
  { vm_compute. reflexivity. }
  split; [exact one_pending_reachable|]. split; [exact E|].
  exact (proj2 (proj2 (lease_exclusivity _ _ _ _ _ noon_02 noon_02
                         one_pending_reachable E))).
Defined.

(** ** C3 *)



(** ** C4 *)

Example older_job_delayed_snapshot :
  storage_file older_job_delayed =
    Document
      [mkJob "job-a" "exit 1" pending 1 3
         "2025-01-02 00:00:01" "2025-01-01 23:59:50" "2025-01-01 23:59:59";
       mkJob "job-b" "echo b" pending 0 3
         "2025-01-01 23:59:55" "2025-01-01 23:59:55" "2025-01-01 23:59:55"]
      [] (Some []).
Proof. vm_compute. reflexivity. Qed.






Example two_pending_dispatched :
  dispatch_repeatedly same_time_clock two_pending =
    [Returned (Some (mkJob "job-a" "echo a" processing 0 3
                       (str late_50) (str late_50) (str late_56)));
     Returned (Some (mkJob "job-b" "echo b" processing 0 3
                       (str late_55) (str late_55) (str late_59)));
     Returned None].
Proof. vm_compute. reflexivity. Qed.

(** ** C5 *)

(** C5, as stated, fails: [enqueue_job] takes any integer as the retry
    budget.  After [enqueue_job("echo hi", max_retries=-1)] on an empty
    store the one live job is pending with 0 attempts and a budget of -1. *)
Lemma attempts_bound_counterexample :
  reachable negative_budget /\
  exists j, j ∈ jobs (load negative_budget) /\ state j = pending /\
            ~ Z.of_nat (attempts j) <= max_retries j.
Proof.
  split.
  - apply reachable_step; [apply reachable_initial, no_store_initial|].
    simpl. apply not_elem_of_nil.
  - exists (mkJob "job-1" "echo hi" pending 0 (-1) (str noon) (str noon) (str noon)).
    split_and!; [|done|simpl; lia].
    vm_compute. apply list_elem_of_here.
Qed.

(** C5, amended: in every store reached by calls whose enqueues supply a
    non-negative retry budget (the override, or the configured default when
    there is none), every live job that is pending or processing has
    [attempts <= max_retries]; and every operation, called with the lock
    free, takes a store within budget to a store within budget. *)
Theorem attempts_within_budget w :
  reachable_by nonneg_retries w ->
  (forall j, j ∈ jobs (load w) -> state j = pending \/ state j = processing ->
             Z.of_nat (attempts j) <= max_retries j) /\
  (forall cfg o, nonneg_retries w cfg o ->
                 within_budget (load (run_op cfg o w))).
Proof.
  intros Hr. pose proof (reachable_within_budget _ Hr) as Hb. split.
  - apply Hb.
  - intros cfg o Hok. apply run_op_within_budget; [|done..].
    by eapply reachable_by_lock_free.
Qed.

Lemma attempts_within_budget_witness :
  reachable_by nonneg_retries failed_once /\
  forall j, j ∈ jobs (load failed_once) -> state j = pending \/ state j = processing ->
            Z.of_nat (attempts j) <= max_retries j.
Proof.
  assert (reachable_by nonneg_retries failed_once) as Hr.
  { unfold failed_once. cbn [run_ops].
    repeat (apply reachable_step; [|done]).
    apply reachable_initial, no_store_initial. }
  split; [exact Hr|]. exact (proj1 (attempts_within_budget failed_once Hr)).
Defined.

(** ** C6 *)



Example killed_snapshot :
  storage_file killed =
    Document []
      [mkJob "job-1" "exit 1" dead 1 1 (str noon) (str noon) (str noon_01)]
      (Some []).
Proof. vm_compute. reflexivity. Qed.

(** ** C7 *)

(** C7: [retry_dlq_job] on an id of the dead-letter collection removes the
    (first) entry with that id, appends it to the live collection as
    pending with 0 attempts and [run_at] set to the clock reading, and
    returns true; on an id the dead-letter collection does not hold it
    returns false, raises nothing and leaves the world as it was. *)
Theorem retry_dlq_job_outcome job_id now now' w :
  lock_held w = false ->
  (forall i j,
     dlq (load w) !! i = Some j -> id j = job_id ->
     (forall k y, dlq (load w) !! k = Some y -> (k < i)%nat -> id y <> job_id) ->
     retry_dlq_job job_id now now' w =
       (Returned true,
        stored (mkData
                  (jobs (load w) ++
                   [mkJob (id j) (command j) pending 0 (max_retries j)
                      (str now) (created_at j) (str now')])
                  (delete i (dlq (load w)))
                  (active_workers (load w))))) /\
  (job_id ∉ dead_ids w ->
     retry_dlq_job job_id now now' w = (Returned false, w)).
Proof.
  intros Hl. rewrite retry_dlq_job_run by done. split.
  - intros i j Hi Hid Hfirst.
    assert (list_find (fun x => id x = job_id) (dlq (load w)) = Some (i, j)) as ->; [|done].
    apply list_find_Some. split_and!; [done..|]. intros k y Hk Hlt. by eapply Hfirst.
  - intros Hnot.
    assert (list_find (fun x => id x = job_id) (dlq (load w)) = None) as ->; [|done].
    apply list_find_None, Forall_forall. intros x Hx Hid. apply Hnot.
    unfold dead_ids. rewrite <-Hid. by apply list_elem_of_fmap_2.
Qed.

Lemma retry_dlq_job_outcome_witness :
  retry_dlq_job "job-1" noon_04 noon_04 killed =
    (Returned true,
     stored (mkData
               [mkJob "job-1" "exit 1" pending 0 1 (str noon_04) (str noon) (str noon_04)]
               [] []))
  /\ retry_dlq_job "job-2" noon_04 noon_04 killed = (Returned false, killed).
Proof.
  split.
  - refine (proj1 (retry_dlq_job_outcome "job-1" noon_04 noon_04 killed eq_refl)
              0%nat (mkJob "job-1" "exit 1" dead 1 1 (str noon) (str noon) (str noon_01))
              eq_refl eq_refl _).
    intros k y _ Hk. lia.
  - refine (proj2 (retry_dlq_job_outcome "job-2" noon_04 noon_04 killed eq_refl) _).
    vm_compute. intros H. apply list_elem_of_singleton in H. discriminate H.
Defined.

(** ** C8 *)



(** ** C9 *)

Lemma worker_heartbeat_unregistered p now now_reg w :
  lock_held w = false ->
  (forall x, x ∈ active_workers (load w) -> pid x <> p) ->
  worker_heartbeat p now now_reg w = (Raised LockTimeout, stored (load w)).
Proof.
  intros Hl Hnone. rewrite worker_heartbeat_run by done.
  assert (list_find (fun x => pid x = p) (active_workers (load w)) = None) as ->; [|done].
  apply list_find_None, Forall_forall. intros x Hx. by apply Hnone.
Qed.

(** C9: a heartbeat for a worker without a record is meant to register the
    worker.  On the empty store, [worker_heartbeat(4242)] writes the data
    back unchanged and calls [register_worker] while still inside its own
    [with _get_lock()] block; the nested acquisition times out, the call
    raises [LockTimeout], no record is written, and the next status query counts
    no active worker. *)
Theorem heartbeat_unregistered_fails :
  worker_heartbeat 4242 noon noon empty_store = (Raised LockTimeout, empty_store)
  /\ match (get_status DEFAULT_CONFIG noon_01 empty_store).1 with
     | Returned stats => stats !! "active_workers" = Some 0%nat
     | Raised _ => False
     end.
Proof. split; vm_compute; reflexivity. Qed.

(** ** C10 *)

(** C10: [update_job_to_completed] marks the (first) live job with the
    given id completed and sets its [updated_at], whatever state the job
    was in; nothing about that state is assumed or checked. *)
Theorem update_job_to_completed_any_state job_id now w i j :
  lock_held w = false ->
  jobs (load w) !! i = Some j -> id j = job_id ->
  (forall k y, jobs (load w) !! k = Some y -> (k < i)%nat -> id y <> job_id) ->
  update_job_to_completed job_id now w =
    (Returned tt,
     stored (mkData
               (<[i := mkJob (id j) (command j) completed (attempts j)
                        (max_retries j) (run_at j) (created_at j) (str now)]>
                  (jobs (load w)))
               (dlq (load w)) (active_workers (load w)))).
Proof.
  intros Hl Hi Hid Hfirst. rewrite update_job_to_completed_run by done.
  assert (list_find (fun x => id x = job_id) (jobs (load w)) = Some (i, j)) as ->; [|done].
  apply list_find_Some. split_and!; [done..|]. intros k y Hk Hlt. by eapply Hfirst.
Qed.

Lemma update_job_to_completed_any_state_witness :
  update_job_to_completed "job-1" noon_01 one_pending = (Returned tt, completed_once)
  /\ update_job_to_completed "job-1" noon_02 completed_once =
    (Returned tt,
     stored (mkData
               [mkJob "job-1" "echo hi" completed 0 3 (str noon) (str noon) (str noon_02)]
               [] [])).
Proof.
  split.
  - refine (update_job_to_completed_any_state "job-1" noon_01 one_pending 0
              (mkJob "job-1" "echo hi" pending 0 3 (str noon) (str noon) (str noon))
              eq_refl eq_refl eq_refl _).
    intros k y _ Hk. lia.
  - refine (update_job_to_completed_any_state "job-1" noon_02 completed_once 0
              (mkJob "job-1" "echo hi" completed 0 3 (str noon) (str noon) (str noon_01))
              eq_refl eq_refl eq_refl _).
    intros k y _ Hk. lia.
Defined.

(** * Further properties of the code *)

(** * The order of the stored texts *)

Section TextOrder.

Lemma lex_assoc c1 c2 c3 : lex (lex c1 c2) c3 = lex c1 (lex c2 c3).
Proof. by destruct c1. Qed.

Lemma lex_Eq_r c : lex c Eq = c.
Proof. by destruct c. Qed.

Lemma string_compare_cons c1 c2 s1 s2 :
  String.compare (String c1 s1) (String c2 s2) =
    lex (Ascii.compare c1 c2) (String.compare s1 s2).
Proof. simpl. by destruct (Ascii.compare c1 c2). Qed.

Lemma digit_compare x y :
  Ascii.compare (digit x) (digit y) = (x mod 10 ?= y mod 10).
Proof.
  unfold Ascii.compare, digit, ascii_of_nat.
  pose proof (Z.mod_pos_bound x 10 ltac:(lia)) as Hx.
  pose proof (Z.mod_pos_bound y 10 ltac:(lia)) as Hy.
  rewrite !N_ascii_embedding by lia.
  rewrite <-N2Z.inj_compare, !nat_N_Z.
  replace (Z.of_nat (48 + Z.to_nat (x mod 10))) with (48 + x mod 10) by lia.
  replace (Z.of_nat (48 + Z.to_nat (y mod 10))) with (48 + y mod 10) by lia.
  apply Z.add_compare_mono_l.
Qed.

(** Comparing two-part numbers part by part. *)
Lemma compare_high_low P ha la hb lb :
  0 <= la < P -> 0 <= lb < P ->
  (ha * P + la ?= hb * P + lb) = lex (ha ?= hb) (la ?= lb).
Proof.
  intros Ha Hb.
  destruct (Z.compare_spec ha hb) as [->|Hlt|Hgt]; simpl.
  - apply Z.add_compare_mono_l.
  - apply Z.compare_lt_iff. nia.
  - apply Z.compare_gt_iff. nia.
Qed.

Lemma zfill_compare w a b r1 r2 :
  String.compare (zfill w a +:+ r1) (zfill w b +:+ r2) =
    lex (a mod 10 ^ Z.of_nat w ?= b mod 10 ^ Z.of_nat w) (String.compare r1 r2).
Proof.
  induction w as [|w IH].
  - cbn [zfill]. rewrite !append_nil_l. simpl. by rewrite !Z.mod_1_r.
  - cbn [zfill]. rewrite !append_cons, string_compare_cons, digit_compare, IH.
    rewrite <-lex_assoc. f_equal.
    assert (0 < 10 ^ Z.of_nat w) as Hp by (apply Z.pow_pos_nonneg; lia).
    rewrite Nat2Z.inj_succ, Z.pow_succ_r by lia.
    rewrite !(Z.mul_comm 10), !Z.rem_mul_r by lia.
    rewrite <-(compare_high_low (10 ^ Z.of_nat w))
      by (apply Z.mod_pos_bound; lia).
    f_equal; lia.
Qed.

Lemma zfill_compare_small w a b r1 r2 :
  0 <= a < 10 ^ Z.of_nat w -> 0 <= b < 10 ^ Z.of_nat w ->
  String.compare (zfill w a +:+ r1) (zfill w b +:+ r2) =
    lex (a ?= b) (String.compare r1 r2).
Proof. intros Ha Hb. by rewrite zfill_compare, !Z.mod_small. Qed.

Lemma sep_compare c r1 r2 :
  String.compare (String c "" +:+ r1) (String c "" +:+ r2) = String.compare r1 r2.
Proof.
  by rewrite !append_cons, !append_nil_l, string_compare_cons, ascii_compare_refl.
Qed.

(** The optional [".ffffff"] part orders as the microseconds do. *)
Lemma fraction_compare ua ub :
  0 <= ua < 1000000 -> 0 <= ub < 1000000 ->
  String.compare (if ua =? 0 then "" else "." +:+ zfill 6 ua)
                 (if ub =? 0 then "" else "." +:+ zfill 6 ub) = (ua ?= ub).
Proof.
  intros Ha Hb.
  destruct (ua =? 0) eqn:Ea; destruct (ub =? 0) eqn:Eb;
    rewrite ?Z.eqb_eq, ?Z.eqb_neq in Ea, Eb; subst.
  - done.
  - rewrite append_cons. simpl. symmetry. apply Z.compare_lt_iff. lia.
  - rewrite append_cons. simpl. symmetry. apply Z.compare_gt_iff. lia.
  - rewrite sep_compare.
    rewrite <-(append_nil_r (zfill 6 ua)), <-(append_nil_r (zfill 6 ub)).
    rewrite zfill_compare_small by (simpl; lia). apply lex_Eq_r.
Qed.

Lemma days_in_month_le_31 y m : _days_in_month y m <= 31.
Proof.
  unfold _days_in_month, _DAYS_IN_MONTH.
  repeat match goal with |- context [if ?b then _ else _] => destruct b end; lia.
Qed.

(** Up to the separator, the texts of two timestamps order as the dates. *)
Lemma isoformat_sep_compare ca cb a b :
  valid a -> valid b ->
  String.compare (isoformat_sep ca a) (isoformat_sep cb b) =
    lex (date_compare a b)
      (lex (Ascii.compare ca cb)
         (lex (hour a ?= hour b)
            (lex (minute a ?= minute b)
               (lex (second a ?= second b) (microsecond a ?= microsecond b))))).
Proof.
  intros (Hy & Hm & Hd & Hh & Hmi & Hs & Hus) (Hy' & Hm' & Hd' & Hh' & Hmi' & Hs' & Hus').
  pose proof (days_in_month_le_31 (year a) (month a)).
  pose proof (days_in_month_le_31 (year b) (month b)).
  unfold isoformat_sep, date_compare.
  rewrite zfill_compare_small, sep_compare by (simpl; lia).
  rewrite zfill_compare_small, sep_compare by (simpl; lia).
  rewrite zfill_compare_small, string_compare_cons by (simpl; lia).
  rewrite zfill_compare_small, sep_compare by (simpl; lia).
  rewrite zfill_compare_small, sep_compare by (simpl; lia).
  rewrite zfill_compare_small, fraction_compare by (simpl; lia).
  by rewrite !lex_assoc.
Qed.

Lemma str_compare a b :
  valid a -> valid b -> String.compare (str a) (str b) = datetime_compare a b.
Proof.
  intros Ha Hb. unfold str. rewrite isoformat_sep_compare by done.
  by rewrite ascii_compare_refl.
Qed.

Lemma str_isoformat_compare a b :
  valid a -> valid b ->
  String.compare (str a) (isoformat b) = lex (date_compare a b) Lt.
Proof.
  intros Ha Hb. unfold str, isoformat. by rewrite isoformat_sep_compare.
Qed.

End TextOrder.

(** ** The dispatch test and the sort key, in terms of dates and times *)

Lemma validb_true_valid d : validb d = true -> valid d.
Proof.
  unfold valid, validb. rewrite !andb_true_iff, !Z.leb_le, !Z.ltb_lt. tauto.
Qed.

Lemma lex_Lt_not_Gt c : lex c Lt <> Gt <-> c <> Gt.
Proof. by destruct c. Qed.

Lemma string_leb_compare s1 s2 :
  String.leb s1 s2 = true <-> String.compare s1 s2 <> Gt.
Proof. unfold String.leb. by destruct (String.compare s1 s2). Qed.

(** X1: for a job whose [run_at] the store wrote from the datetime [d], the
    test of the dispatch loop passes at the clock reading [now] exactly when
    the job is pending and the calendar date of [d] is not after the
    calendar date of [now]; hours, minutes, seconds and microseconds play no
    part. *)
Theorem dispatch_test_compares_dates now d j :
  valid now -> due_on d j ->
  eligible now j = true <-> state j = pending /\ date_compare d now <> Gt.
Proof.
  intros Hnow [Hd Hr]. unfold eligible.
  rewrite andb_true_iff, bool_decide_eq_true, Hr, string_leb_compare.
  by rewrite str_isoformat_compare, lex_Lt_not_Gt.
Qed.

Lemma dispatch_test_compares_dates_witness :
  eligible noon_02 (mkJob "job-1" "exit 1" pending 1 3 (str new_year_2026) (str noon) (str noon))
    = true <->
  pending = pending /\ date_compare new_year_2026 noon_02 <> Gt.
Proof.
  apply (dispatch_test_compares_dates noon_02 new_year_2026
           (mkJob "job-1" "exit 1" pending 1 3 (str new_year_2026) (str noon) (str noon))).
  - apply validb_true_valid. reflexivity.
  - split; [apply validb_true_valid|]; reflexivity.
Defined.

(** X2: when the stored [created_at] texts were written from datetimes, the
    job a dispatch call returns was enqueued no later, in Python's order of
    datetimes, than any other job that passes the dispatch test, and
    strictly earlier than every such job stored before it. *)
Theorem dispatch_returns_earliest_enqueued now now' w j w' :
  lock_held w = false ->
  get_next_job_for_worker now now' w = (Returned (Some j), w') ->
  exists i j0,
    jobs (load w) !! i = Some j0 /\ j = leased now' j0 /\
    forall a, created_on a j0 ->
    forall k jk b,
      jobs (load w) !! k = Some jk -> eligible now jk = true -> created_on b jk ->
      datetime_compare a b <> Gt /\
      ((k < i)%nat -> datetime_compare a b = Lt).
Proof.
  intros Hl Hd.
  destruct (dispatch_cases now now' w Hl)
    as [(i & j0 & Hi & He0 & Hmin & Heq)|[_ Heq]]; rewrite Heq in Hd; [|done].
  injection Hd as <- <-. exists i, j0. split_and!; [done..|].
  intros a [Ha Hca] k jk b Hk He [Hb Hcb].
  destruct (Hmin k jk Hk He) as [Hle Hlt]. unfold created_le in Hle.
  rewrite Hca, Hcb in Hle, Hlt.
  rewrite string_leb_compare, str_compare in Hle by done. split; [done|].
  intros Hki. rewrite <-str_compare by done. apply string_ltb_lt. by apply Hlt.
Qed.

Lemma two_pending_first_dispatch :
  get_next_job_for_worker late_56 late_56 two_pending =
    (Returned (Some (mkJob "job-a" "echo a" processing 0 3
                       (str late_50) (str late_50) (str late_56))),
     stored (mkData
               [mkJob "job-a" "echo a" processing 0 3
                  (str late_50) (str late_50) (str late_56);
                mkJob "job-b" "echo b" pending 0 3
                  (str late_55) (str late_55) (str late_55)] [] [])).
Proof. vm_compute. reflexivity. Qed.

Lemma dispatch_returns_earliest_enqueued_witness :
  exists i j0,
    jobs (load two_pending) !! i = Some j0 /\
    mkJob "job-a" "echo a" processing 0 3 (str late_50) (str late_50) (str late_56)
      = leased late_56 j0 /\
    forall a, created_on a j0 ->
    forall k jk b,
      jobs (load two_pending) !! k = Some jk -> eligible late_56 jk = true ->
      created_on b jk ->
      datetime_compare a b <> Gt /\
      ((k < i)%nat -> datetime_compare a b = Lt).
Proof.
  exact (dispatch_returns_earliest_enqueued late_56 late_56 two_pending _ _
           eq_refl two_pending_first_dispatch).
Defined.

(** ** Runs of dispatch calls *)

Section DispatchRuns.

Lemma dispatch_run_from_pending clock w :
  lock_held w = false -> NoDup (live_ids w) ->
  NoDup (id <$> returned_jobs (dispatch_repeatedly clock w)) /\
  forall j, j ∈ returned_jobs (dispatch_repeatedly clock w) ->
    state j = processing /\
    exists j0, j0 ∈ jobs (load w) /\ state j0 = pending /\ id j0 = id j.
Proof.
  revert w. induction clock as [|[now now'] clock IH]; intros w Hl Hn.
  { split; [constructor|]. intros j Hj. by apply elem_of_nil in Hj. }
  cbn [dispatch_repeatedly].
  destruct (dispatch_cases now now' w Hl)
    as [(i & j0 & Hi & He & _ & ->)|[_ ->]].
  - set (w' := stored _).
    assert (live_ids w' = live_ids w) as Hids.
    { unfold w', live_ids. rewrite load_stored. simpl.
      rewrite list_fmap_insert. apply list_insert_id.
      by rewrite list_lookup_fmap, Hi. }
    destruct (IH w' eq_refl) as [Hnd Hfrom]; [by rewrite Hids|].
    assert (forall x, x ∈ jobs (load w') -> state x = pending ->
                      x ∈ jobs (load w) /\ id x <> id j0) as Hother.
    { unfold w'. rewrite load_stored. simpl.
      intros x (k & Hk)%list_elem_of_lookup_1 Hx.
      apply list_lookup_insert_Some in Hk as [(_ & <- & _)|[Hne Hk]]; [done|].
      split; [by eapply list_elem_of_lookup_2|]. intros Hid. apply Hne.
      apply (proj1 (NoDup_alt _) Hn i k (id j0)); unfold live_ids;
        rewrite list_lookup_fmap.
      - by rewrite Hi.
      - rewrite Hk. simpl. by rewrite Hid. }
    cbn [returned_jobs omap list_omap]. fold (returned_jobs (dispatch_repeatedly clock w')).
    split.
    + rewrite fmap_cons. constructor; [|done].
      intros (x & Hidx & Hx)%list_elem_of_fmap.
      destruct (Hfrom x Hx) as (_ & x0 & Hx0 & Hp & Hid0).
      destruct (Hother x0 Hx0 Hp) as [_ Hne]. apply Hne.
      rewrite Hid0, <-Hidx. done.
    + intros j [->|Hj]%elem_of_cons.
      * split; [done|]. exists j0. split_and!; [|by eapply eligible_pending|done].
        by eapply list_elem_of_lookup_2.
      * destruct (Hfrom j Hj) as (Hs & x0 & Hx0 & Hp & Hid0).
        split; [done|]. exists x0. split_and!; [|done..]. by apply Hother.
  - cbn [returned_jobs omap list_omap]. by apply IH.
Qed.

End DispatchRuns.

(** X3: in a run of dispatch calls with nothing in between, on a store
    whose live ids are pairwise distinct, no job is handed out twice, every
    job handed out is marked processing, and no more jobs are handed out
    than were pending at the start. *)
Theorem dispatch_run_hands_out_each_job_once clock w :
  lock_held w = false -> NoDup (live_ids w) ->
  NoDup (id <$> returned_jobs (dispatch_repeatedly clock w)) /\
  Forall (fun j => state j = processing)
    (returned_jobs (dispatch_repeatedly clock w)) /\
  (length (returned_jobs (dispatch_repeatedly clock w)) <=
   length (List.filter is_pending (jobs (load w))))%nat.
Proof.
  intros Hl Hn. destruct (dispatch_run_from_pending clock w Hl Hn) as [Hnd Hfrom].
  split_and!; [done| |].
  - apply Forall_forall. intros j Hj. by apply Hfrom.
  - rewrite <-(length_fmap id (returned_jobs _)),
      <-(length_fmap id (List.filter _ _)).
    apply submseteq_length, NoDup_submseteq; [done|].
    intros x (j & -> & Hj)%list_elem_of_fmap.
    destruct (Hfrom j Hj) as (_ & j0 & Hj0 & Hp & <-).
    apply list_elem_of_fmap_2, elem_of_List_filter. split; [done|].
    by apply bool_decide_eq_true.
Qed.

Lemma dispatch_run_hands_out_each_job_once_witness :
  NoDup (id <$> returned_jobs (dispatch_repeatedly same_time_clock two_pending)) /\
  Forall (fun j => state j = processing)
    (returned_jobs (dispatch_repeatedly same_time_clock two_pending)) /\
  (length (returned_jobs (dispatch_repeatedly same_time_clock two_pending)) <=
   length (List.filter is_pending (jobs (load two_pending))))%nat.
Proof.
  apply (dispatch_run_hands_out_each_job_once same_time_clock two_pending).
  - reflexivity.
  - vm_compute. repeat constructor; set_solver.
Defined.

(** ** Outcomes reported for an unknown id; the dead-letter round trip *)

Lemma list_find_id_None job_id (l : list job) :
  job_id ∉ id <$> l -> list_find (fun j => id j = job_id) l = None.
Proof.
  intros Hnot. apply list_find_None, Forall_forall. intros x Hx Hid.
  apply Hnot. rewrite <-Hid. by apply list_elem_of_fmap_2.
Qed.

(** X4: reporting a failure or a completion for an id the live collection
    does not hold returns normally and writes nothing: the file, a missing
    or unreadable one included, and any dead-letter entry with that id stay
    as they were. *)
Theorem unknown_id_is_ignored cfg jb job_id now now' w :
  lock_held w = false ->
  (id jb ∉ live_ids w -> handle_failed_job cfg jb now now' w = (Returned tt, w)) /\
  (job_id ∉ live_ids w -> update_job_to_completed job_id now w = (Returned tt, w)).
Proof.
  intros Hl. split; intros Hnot.
  - rewrite handle_failed_job_run by done. by rewrite list_find_id_None.
  - rewrite update_job_to_completed_run by done. by rewrite list_find_id_None.
Qed.

Lemma unknown_id_is_ignored_witness :
  handle_failed_job DEFAULT_CONFIG
    (mkJob "job-1" "exit 1" processing 0 1 (str noon) (str noon) (str noon_01))
    noon_04 noon_04 killed = (Returned tt, killed) /\
  update_job_to_completed "job-1" noon_04 no_store = (Returned tt, no_store).
Proof.
  split.
  - refine (proj1 (unknown_id_is_ignored DEFAULT_CONFIG
              (mkJob "job-1" "exit 1" processing 0 1 (str noon) (str noon) (str noon_01))
              "job-1" noon_04 noon_04 killed eq_refl) _).
    vm_compute. apply not_elem_of_nil.
  - refine (proj2 (unknown_id_is_ignored DEFAULT_CONFIG
              (mkJob "job-1" "exit 1" processing 0 1 (str noon) (str noon) (str noon_01))
              "job-1" noon_04 noon_04 no_store eq_refl) _).
    vm_compute. apply not_elem_of_nil.
Defined.

Lemma delete_app_last {A} (l : list A) (x : A) : delete (length l) (l ++ [x]) = l.
Proof. rewrite delete_middle. apply app_nil_r. Qed.

Lemma list_find_id_last job_id (l : list job) (x : job) :
  job_id ∉ id <$> l -> id x = job_id ->
  list_find (fun j => id j = job_id) (l ++ [x]) = Some (length l, x).
Proof.
  intros Hnot Hid. apply list_find_Some. split_and!.
  - by rewrite list_lookup_middle.
  - done.
  - intros k y Hk Hlt Hy. apply Hnot. rewrite <-Hy.
    apply list_elem_of_fmap_2. apply list_elem_of_lookup_2 with k.
    by rewrite lookup_app_l in Hk.
Qed.

(** X5: when a failure uses up the retry budget of a live job and the job
    is then retried from the dead-letter collection, the dead-letter
    collection is back to what it was and the job is at the end of the live
    collection, pending, with 0 attempts, its id, command, budget and
    [created_at] unchanged, and it passes the dispatch test at the clock
    reading of the retry. *)
Theorem dead_letter_round_trip cfg jb now now' now2 now2' w i j :
  lock_held w = false ->
  jobs (load w) !! i = Some j -> id j = id jb ->
  (forall k y, jobs (load w) !! k = Some y -> (k < i)%nat -> id y <> id jb) ->
  max_retries j <= Z.of_nat (attempts j + 1) ->
  id jb ∉ dead_ids w ->
  let revived :=
    mkJob (id j) (command j) pending 0 (max_retries j)
      (str now2) (created_at j) (str now2') in
  retry_dlq_job (id jb) now2 now2' (handle_failed_job cfg jb now now' w).2 =
    (Returned true,
     stored (mkData (delete i (jobs (load w)) ++ [revived])
               (dlq (load w)) (active_workers (load w)))) /\
  eligible now2 revived = true.
Proof.
  intros Hl Hi Hid Hfirst Hmax Hnot revived. split.
  - assert (list_find (fun x => id x = id jb) (jobs (load w)) = Some (i, j)) as Hf.
    { apply list_find_Some. split_and!; [done..|]. intros k y Hk Hlt. by eapply Hfirst. }
    rewrite handle_failed_job_run by done. rewrite Hf. cbv zeta.
    apply Z.leb_le in Hmax. rewrite Hmax. cbn [snd].
    rewrite retry_dlq_job_run by done. rewrite !load_stored.
    cbn [dlq jobs active_workers set_dlq set_jobs].
    rewrite (list_find_id_last (id jb)) by done.
    by rewrite delete_app_last.
  - by apply (eligible_same_day now2 now2).
Qed.

Lemma dead_letter_round_trip_witness :
  retry_dlq_job "job-1" noon_04 noon_04
    (handle_failed_job DEFAULT_CONFIG
       (mkJob "job-1" "exit 1" processing 0 1 (str noon) (str noon) (str noon_01))
       noon_02 noon_02
       (stored (mkData [mkJob "job-1" "exit 1" processing 0 1
                          (str noon) (str noon) (str noon_01)] [] []))).2 =
    (Returned true,
     stored (mkData
               [mkJob "job-1" "exit 1" pending 0 1 (str noon_04) (str noon) (str noon_04)]
               [] [])) /\
  eligible noon_04
    (mkJob "job-1" "exit 1" pending 0 1 (str noon_04) (str noon) (str noon_04)) = true.
Proof.
  refine (dead_letter_round_trip DEFAULT_CONFIG
            (mkJob "job-1" "exit 1" processing 0 1 (str noon) (str noon) (str noon_01))
            noon_02 noon_02 noon_04 noon_04
            (stored (mkData [mkJob "job-1" "exit 1" processing 0 1
                               (str noon) (str noon) (str noon_01)] [] []))
            0 (mkJob "job-1" "exit 1" processing 0 1 (str noon) (str noon) (str noon_01))
            eq_refl eq_refl eq_refl _ _ _).
  - intros k y _ Hk. lia.
  - simpl. lia.
  - vm_compute. apply not_elem_of_nil.
Defined.

(** X6: a job enqueued into a store in which nothing passes the dispatch
    test is handed out by a dispatch call made at the very clock reading of
    the enqueue: a new job is due at once. *)
Theorem enqueued_job_is_due_at_once cfg cmd retries job_id t now' w :
  lock_held w = false ->
  (forall j, j ∈ jobs (load w) -> eligible t j = false) ->
  (get_next_job_for_worker t now' (enqueue_job cfg cmd retries job_id t w).2).1 =
    Returned (Some (leased now' (new_job cfg cmd retries job_id t))).
Proof.
  intros Hl Hnone. rewrite enqueue_job_run by done. cbn [snd].
  set (w1 := stored _).
  assert (eligible t (new_job cfg cmd retries job_id t) = true) as Hnew.
  { by apply (eligible_same_day t t). }
  destruct (dispatch_cases t now' w1 eq_refl)
    as [(i & j & Hi & He & _ & ->)|[Hnone1 _]].
  - cbn [fst]. do 3 f_equal. unfold w1 in Hi. rewrite load_stored in Hi.
    cbn [jobs set_jobs] in Hi.
    apply lookup_app_Some in Hi as [Hi|[_ Hi]].
    + apply list_elem_of_lookup_2 in Hi. by rewrite (Hnone j Hi) in He.
    + destruct (i - length (jobs (load w)))%nat; [by injection Hi|done].
  - exfalso. specialize (Hnone1 (new_job cfg cmd retries job_id t)).
    rewrite Hnew in Hnone1. unfold w1 in Hnone1. rewrite load_stored in Hnone1.
    cbn [jobs set_jobs] in Hnone1. discriminate Hnone1. set_solver.
Qed.

Lemma enqueued_job_is_due_at_once_witness :
  (get_next_job_for_worker noon noon_01
     (enqueue_job DEFAULT_CONFIG "echo hi" None "job-2" noon killed).2).1 =
    Returned (Some (leased noon_01 (new_job DEFAULT_CONFIG "echo hi" None "job-2" noon))).
Proof.
  apply (enqueued_job_is_due_at_once DEFAULT_CONFIG "echo hi" None "job-2" noon
           noon_01 killed eq_refl).
  intros j Hj. vm_compute in Hj. by apply elem_of_nil in Hj.
Defined.

(** ** What the operations leave alone *)

Section Frame.

Lemma elem_of_insert_inv {A} (l : list A) i x y :
  y ∈ <[i:=x]> l -> y = x \/ y ∈ l.
Proof.
  intros (k & Hk)%list_elem_of_lookup_1.
  apply list_lookup_insert_Some in Hk as [(_ & -> & _)|[_ Hk]]; [by left|].
  right. by eapply list_elem_of_lookup_2.
Qed.

Lemma same_identity_refl j : same_identity j j.
Proof. done. Qed.

Lemma traced_old cfg o w j : j ∈ all_jobs w -> traced cfg o w j.
Proof. intros Hj. left. exists j. by split_and!. Qed.

Lemma traced_live cfg o w j : j ∈ jobs (load w) -> traced cfg o w j.
Proof. intros Hj. apply traced_old, elem_of_app. by left. Qed.

Lemma traced_dead cfg o w j : j ∈ dlq (load w) -> traced cfg o w j.
Proof. intros Hj. apply traced_old, elem_of_app. by right. Qed.

Lemma traced_same_load cfg o w :
  load (run_op cfg o w) = load w ->
  forall j', j' ∈ all_jobs (run_op cfg o w) -> traced cfg o w j'.
Proof. unfold all_jobs. intros -> j' Hj'. by apply traced_old. Qed.

Lemma traced_workers cfg o w ws :
  load (run_op cfg o w) = set_active_workers ws (load w) ->
  forall j', j' ∈ all_jobs (run_op cfg o w) -> traced cfg o w j'.
Proof. unfold all_jobs. intros -> j' Hj'. by apply traced_old. Qed.

Lemma run_op_traced cfg o w j' :
  lock_held w = false -> j' ∈ all_jobs (run_op cfg o w) -> traced cfg o w j'.
Proof.
  intros Hl. revert j'. destruct o.
  - apply traced_same_load. simpl. rewrite init_storage_run by done.
    by destruct w as [[| |js dl [ws|]] lk].
  - intros j'. unfold all_jobs. rewrite run_op_enqueue by done. simpl.
    rewrite !elem_of_app, list_elem_of_singleton.
    intros [[Hj| ->]|Hj]; [by apply traced_live| |by apply traced_dead].
    right. by exists cmd, retries, job_id, now.
  - intros j'. unfold all_jobs. simpl. rewrite get_next_job_for_worker_run by done.
    destruct (candidates _ _) as [|[i j] r] eqn:Hc; simpl; [by apply traced_old|].
    apply candidates_head in Hc as (Hi & _). rewrite ?load_stored. simpl.
    rewrite elem_of_app.
    intros [[->|Hj]%elem_of_insert_inv|Hj];
      [|by apply traced_live|by apply traced_dead].
    left. exists j. split_and!; [|done..].
    apply elem_of_app. left. by eapply list_elem_of_lookup_2.
  - intros j'. unfold all_jobs. simpl. rewrite update_job_to_completed_run by done.
    destruct (list_find _ _) as [[i j]|] eqn:Hf; simpl; [|by apply traced_old].
    apply list_find_Some in Hf as (Hi & _). rewrite ?load_stored. simpl.
    rewrite elem_of_app.
    intros [[->|Hj]%elem_of_insert_inv|Hj];
      [|by apply traced_live|by apply traced_dead].
    left. exists j. split_and!; [|done..].
    apply elem_of_app. left. by eapply list_elem_of_lookup_2.
  - intros j'. unfold all_jobs. simpl. rewrite handle_failed_job_run by done.
    destruct (list_find _ _) as [[i j]|] eqn:Hf; simpl; [|by apply traced_old].
    apply list_find_Some in Hf as (Hi & _).
    assert (j ∈ all_jobs w) as Hj0.
    { apply elem_of_app. left. by eapply list_elem_of_lookup_2. }
    destruct (max_retries j <=? _); simpl.
    + rewrite ?load_stored. simpl. rewrite !elem_of_app, list_elem_of_singleton.
      intros [Hj%list_elem_of_delete_inv|[Hj| ->]];
        [by apply traced_live|by apply traced_dead|].
      left. exists j. by split_and!.
    + destruct (add_seconds _ _); simpl; [|by apply traced_old].
      rewrite ?load_stored. simpl. rewrite elem_of_app.
      intros [[->|Hj]%elem_of_insert_inv|Hj];
        [|by apply traced_live|by apply traced_dead].
      left. exists j. by split_and!.
  - intros j'. unfold all_jobs. simpl. rewrite retry_dlq_job_run by done.
    destruct (list_find _ _) as [[i j]|] eqn:Hf; simpl; [|by apply traced_old].
    apply list_find_Some in Hf as (Hi & _).
    assert (j ∈ all_jobs w) as Hj0.
    { apply elem_of_app. right. by eapply list_elem_of_lookup_2. }
    rewrite ?load_stored. simpl. rewrite !elem_of_app, list_elem_of_singleton.
    intros [[Hj| ->]|Hj%list_elem_of_delete_inv];
      [by apply traced_live| |by apply traced_dead].
    left. exists j. by split_and!.
  - eapply traced_workers. simpl. rewrite get_status_world by done.
    apply load_stored.
  - apply traced_same_load. simpl. by rewrite list_jobs_world.
  - eapply traced_workers. simpl. rewrite register_worker_run by done.
    apply load_stored.
  - eapply traced_workers. simpl. rewrite unregister_worker_run by done.
    apply load_stored.
  - destruct (list_find (fun x => pid x = p) (active_workers (load w)))
      as [[i x]|] eqn:Hf.
    + eapply traced_workers. simpl. rewrite worker_heartbeat_run, Hf by done.
      apply load_stored.
    + apply traced_same_load. simpl. rewrite worker_heartbeat_run, Hf by done.
      apply load_stored.
Qed.

End Frame.

(** X7: whatever the call, every job found afterwards in the live or the
    dead-letter collection is either the job the call enqueued or a job
    that was there before with the same id, command, [created_at] and
    [max_retries]; and only a reported failure or a dead-letter retry
    changes an attempt count. *)
Theorem identity_fields_are_kept cfg o w j' :
  lock_held w = false -> j' ∈ all_jobs (run_op cfg o w) ->
  (exists j, j ∈ all_jobs w /\ same_identity j j' /\
             (counts_attempts o = false -> attempts j' = attempts j)) \/
  (exists cmd retries job_id now,
     o = OpEnqueue cmd retries job_id now /\
     j' = new_job cfg cmd retries job_id now).
Proof. apply run_op_traced. Qed.

Lemma identity_fields_are_kept_witness :
  (exists j, j ∈ all_jobs one_pending /\
             same_identity j
               (mkJob "job-1" "echo hi" processing 0 3 (str noon) (str noon) (str noon_01)) /\
             (counts_attempts (OpDispatch noon_01 noon_01) = false ->
              attempts (mkJob "job-1" "echo hi" processing 0 3
                          (str noon) (str noon) (str noon_01)) = attempts j)) \/
  (exists cmd retries job_id now,
     OpDispatch noon_01 noon_01 = OpEnqueue cmd retries job_id now /\
     mkJob "job-1" "echo hi" processing 0 3 (str noon) (str noon) (str noon_01) =
       new_job DEFAULT_CONFIG cmd retries job_id now).
Proof.
  apply (identity_fields_are_kept DEFAULT_CONFIG (OpDispatch noon_01 noon_01)
           one_pending).
  - reflexivity.
  - vm_compute. apply list_elem_of_here.
Defined.

(** ** Status and listing *)

Section Status.

Lemma state_name_inj s1 s2 : state_name s1 = state_name s2 -> s1 = s2.
Proof. by destruct s1, s2. Qed.

Lemma counts_fold (js : list job) (m : gmap string nat) (k : string) :
  foldl (fun (stats : gmap string nat) j =>
           let st := state_name (state j) in
           <[st := (default 0 (stats !! st) + 1)%nat]> stats)
        m js !! k =
    match length (List.filter (named k) js) with
    | O => m !! k
    | S n => Some (default 0 (m !! k) + S n)%nat
    end.
Proof.
  revert m. induction js as [|j js IH]; intros m; [done|].
  cbn [foldl List.filter]. rewrite IH. unfold named at 2.
  destruct (decide (state_name (state j) = k)) as [Hk|Hk].
  - rewrite bool_decide_eq_true_2 by done. cbn [length].
    rewrite Hk, lookup_insert_eq. cbn [default from_option]. unfold Datatypes.id.
    destruct (length (List.filter (named k) js)); f_equal; lia.
  - rewrite bool_decide_eq_false_2 by done. by rewrite lookup_insert_ne.
Qed.

Lemma status_counts_lookup js k :
  status_counts js !! k =
    match length (List.filter (named k) js) with
    | O => None
    | S n => Some (S n)
    end.
Proof.
  unfold status_counts. rewrite counts_fold, lookup_empty.
  by destruct (length _).
Qed.

Lemma get_status_run cfg now w :
  lock_held w = false ->
  get_status cfg now w =
    (Returned
       (<["active_workers" :=
            length (List.filter (alive cfg now) (active_workers (load w)))]>
          (<["dead" := length (dlq (load w))]> (status_counts (jobs (load w))))),
     stored (set_active_workers
               (List.filter (alive cfg now) (active_workers (load w))) (load w))).
Proof.
  intros Hl. destruct w as [f lk]. simpl in Hl. subst lk.
  unfold get_status, with_lock, bind. rewrite _read_data_run.
  unfold ret, _write_data, _get_active_worker_count, load.
  by cbn [storage_file lock_held fst snd].
Qed.

Lemma list_jobs_run s w :
  lock_held w = false ->
  list_jobs s w =
    (Returned (if bool_decide (s = dead) then dlq (load w)
               else List.filter (fun j => bool_decide (state j = s)) (jobs (load w))),
     w).
Proof.
  intros Hl. destruct w as [f lk]. simpl in Hl. subst lk.
  unfold list_jobs, with_lock, bind. rewrite _read_data_run. unfold ret.
  cbn [storage_file lock_held fst snd]. by destruct (bool_decide _).
Qed.

Lemma filter_named_state s js :
  List.filter (named (state_name s)) js =
  List.filter (fun j => bool_decide (state j = s)) js.
Proof.
  apply List.filter_ext. intros j. unfold named. apply bool_decide_ext.
  split; [apply state_name_inj|by intros ->].
Qed.

End Status.

(** X8: the count a status query reports under a state name is the number
    of jobs [list_jobs] returns for that state; a name the report lacks is a
    state [list_jobs] finds no job in.  For ["dead"] both are the
    dead-letter collection.  Listing writes nothing. *)
Theorem status_agrees_with_listing cfg now s w :
  lock_held w = false ->
  exists stats l,
    (get_status cfg now w).1 = Returned stats /\
    list_jobs s w = (Returned l, w) /\
    match stats !! state_name s with
    | Some n => n = length l
    | None => l = []
    end.
Proof.
  intros Hl. rewrite get_status_run, list_jobs_run by done.
  eexists _, _. split_and!; [reflexivity..|]. cbn [fst].
  destruct (decide (s = dead)) as [->|Hs].
  - rewrite bool_decide_eq_true_2 by done. simpl.
    by rewrite lookup_insert_ne, lookup_insert_eq.
  - rewrite bool_decide_eq_false_2 by done.
    rewrite !lookup_insert_ne by by destruct s.
    rewrite status_counts_lookup, filter_named_state.
    destruct (List.filter _ _); done.
Qed.

Lemma status_agrees_with_listing_witness :
  exists stats l,
    (get_status DEFAULT_CONFIG noon_04 failed_once).1 = Returned stats /\
    list_jobs pending failed_once = (Returned l, failed_once) /\
    match stats !! state_name pending with
    | Some n => n = length l
    | None => l = []
    end.
Proof.
  exact (status_agrees_with_listing DEFAULT_CONFIG noon_04 pending failed_once eq_refl).
Defined.



(** ** The worker records *)

Section Workers.

Lemma filter_filter_same {A} (f : A -> bool) (l : list A) :
  List.filter f (List.filter f l) = List.filter f l.
Proof.
  induction l as [|x l IH]; [done|]. simpl. destruct (f x) eqn:Hx; [|done].
  simpl. by rewrite Hx, IH.
Qed.

Lemma filter_filter_neg {A} (f : A -> bool) (l : list A) :
  List.filter f (List.filter (fun x => negb (f x)) l) = [].
Proof.
  induction l as [|x l IH]; [done|]. simpl. destruct (f x) eqn:Hx; [done|].
  simpl. by rewrite Hx.
Qed.


Lemma worker_pids_stored d : worker_pids (stored d) = pid <$> active_workers d.
Proof. unfold worker_pids. by rewrite load_stored. Qed.


End Workers.



(** X11: [register_worker] returns normally and leaves the worker with
    exactly one record, the new one, placed last, however many records it
    had; the records of the other workers, the jobs and the dead-letter
    collection stay as they were. *)
Theorem register_replaces_records p now w :
  lock_held w = false ->
  exists w',
    register_worker p now w = (Returned tt, w') /\
    List.filter (is_worker p) (active_workers (load w')) = [mkWorker p (str now)] /\
    List.filter (is_other_worker p) (active_workers (load w')) =
      List.filter (is_other_worker p) (active_workers (load w)) /\
    last (active_workers (load w')) = Some (mkWorker p (str now)) /\
    jobs (load w') = jobs (load w) /\ dlq (load w') = dlq (load w).
Proof.
  intros Hl. rewrite register_worker_run by done. eexists. split; [reflexivity|].
  rewrite load_stored. cbn [active_workers set_active_workers jobs dlq].
  rewrite !List.filter_app. unfold is_worker, is_other_worker.
  rewrite (filter_filter_neg (fun x => pid x =? p)), filter_filter_same.
  simpl. rewrite Z.eqb_refl. simpl. rewrite app_nil_r.
  split_and!; [done..| |done|done]. apply last_snoc.
Qed.

Lemma register_replaces_records_witness :
  exists w',
    register_worker 7 noon_04 crowded = (Returned tt, w') /\
    List.filter (is_worker 7) (active_workers (load w')) = [mkWorker 7 (str noon_04)] /\
    List.filter (is_other_worker 7) (active_workers (load w')) =
      List.filter (is_other_worker 7) (active_workers (load crowded)) /\
    last (active_workers (load w')) = Some (mkWorker 7 (str noon_04)) /\
    jobs (load w') = jobs (load crowded) /\ dlq (load w') = dlq (load crowded).
Proof. exact (register_replaces_records 7 noon_04 crowded eq_refl). Defined.

(** X12: [unregister_worker] removes every record of the worker and no
    other; unregistering right after registering, or a second time, leaves
    the same file as unregistering once. *)
Theorem unregister_removes_worker p now w :
  lock_held w = false ->
  exists w',
    unregister_worker p w = (Returned tt, w') /\
    active_workers (load w') = List.filter (is_other_worker p) (active_workers (load w)) /\
    (p ∉ worker_pids w') /\
    unregister_worker p (register_worker p now w).2 = (Returned tt, w') /\
    unregister_worker p w' = (Returned tt, w').
Proof.
  intros Hl.
  exists (stored (set_active_workers
                    (List.filter (is_other_worker p) (active_workers (load w)))
                    (load w))).
  rewrite register_worker_run by done. cbn [snd].
  rewrite !unregister_worker_run by done.
  rewrite !load_stored. rewrite worker_pids_stored.
  cbn [active_workers set_active_workers jobs dlq].
  fold (is_other_worker p).
  split_and!; [done|done| | |].
  - intros (x & -> & [_ Hx]%elem_of_List_filter)%list_elem_of_fmap.
    unfold is_other_worker in Hx. by rewrite Z.eqb_refl in Hx.
  - rewrite List.filter_app, filter_filter_same. cbn [List.filter].
    unfold is_other_worker at 2. cbn [pid]. rewrite Z.eqb_refl. cbn [negb].
    by rewrite app_nil_r.
  - unfold stored, set_active_workers. cbn [jobs dlq active_workers].
    by rewrite filter_filter_same.
Qed.

Lemma unregister_removes_worker_witness :
  exists w',
    unregister_worker 7 crowded = (Returned tt, w') /\
    active_workers (load w') =
      List.filter (is_other_worker 7) (active_workers (load crowded)) /\
    (7 ∉ worker_pids w') /\
    unregister_worker 7 (register_worker 7 noon_04 crowded).2 = (Returned tt, w') /\
    unregister_worker 7 w' = (Returned tt, w').
Proof. exact (unregister_removes_worker 7 noon_04 crowded eq_refl). Defined.



(** ** The lock and the exceptions *)

(** X14: while the lock is held elsewhere, every operation ends with the
    lock timeout and has written nothing: the file and the lock are as they
    were. *)
Theorem held_lock_blocks_every_operation cfg o w :
  lock_held w = true ->
  call_error cfg o w = Some LockTimeout /\ run_op cfg o w = w.
Proof.
  intros Hl. destruct w as [f lk]. simpl in Hl. subst lk.
  by destruct o.
Qed.

Lemma held_lock_blocks_every_operation_witness :
  call_error DEFAULT_CONFIG (OpDispatch noon_01 noon_01) held_store = Some LockTimeout /\
  run_op DEFAULT_CONFIG (OpDispatch noon_01 noon_01) held_store = held_store.
Proof.
  exact (held_lock_blocks_every_operation DEFAULT_CONFIG (OpDispatch noon_01 noon_01)
           held_store eq_refl).
Defined.



Example far_backoff_overflows :
  handle_failed_job DEFAULT_CONFIG
    (mkJob "job-1" "exit 1" processing 40 100 (str noon) (str noon) (str noon_01))
    noon_02 noon_02 far_backoff = (Raised OverflowError, far_backoff).
Proof. vm_compute. reflexivity. Qed.



(** ** The worker's report *)

Section Report.

Lemma handle_failed_job_resolves cfg jb now now' w w' :
  lock_held w = false -> NoDup (live_ids w) ->
  handle_failed_job cfg jb now now' w = (Returned tt, w') ->
  lock_held w' = false /\
  forall x, x ∈ jobs (load w') -> id x = id jb -> state x = pending.
Proof.
  intros Hl Hn. rewrite handle_failed_job_run by done.
  destruct (list_find _ _) as [[i j]|] eqn:Hf.
  - apply list_find_Some in Hf as (Hi & Hid & _). cbv zeta.
    assert (forall k y, jobs (load w) !! k = Some y -> id y = id jb -> k = i) as Huniq.
    { intros k y Hk Hy.
      apply (proj1 (NoDup_alt _) Hn k i (id jb)); unfold live_ids;
        rewrite list_lookup_fmap.
      - rewrite Hk. simpl. by rewrite Hy.
      - rewrite Hi. simpl. by rewrite Hid. }
    destruct (max_retries j <=? _).
    + intros [= <-]. split; [done|]. rewrite load_stored.
      cbn [jobs set_jobs set_dlq]. intros x (k & Hk)%list_elem_of_lookup_1 Hx.
      exfalso. destruct (decide (k < i)%nat) as [Hlt|Hge].
      * rewrite list_lookup_delete_lt in Hk by done.
        specialize (Huniq k x Hk Hx). lia.
      * rewrite list_lookup_delete_ge in Hk by lia.
        specialize (Huniq (S k) x Hk Hx). lia.
    + destruct (add_seconds _ _); [|done].
      intros [= <-]. split; [done|]. rewrite load_stored. cbn [jobs set_jobs].
      intros x (k & Hk)%list_elem_of_lookup_1 Hx.
      apply list_lookup_insert_Some in Hk as [(_ & <- & _)|[Hne Hk]]; [done|].
      by specialize (Huniq k x Hk Hx).
  - intros [= <-]. split; [done|]. intros x Hx Hid. exfalso.
    apply list_find_None in Hf. rewrite Forall_forall in Hf. by apply (Hf x).
Qed.

Lemma update_job_to_completed_resolves job_id now w w' :
  lock_held w = false -> NoDup (live_ids w) ->
  update_job_to_completed job_id now w = (Returned tt, w') ->
  forall x, x ∈ jobs (load w') -> id x = job_id -> state x = completed.
Proof.
  intros Hl Hn. rewrite update_job_to_completed_run by done.
  destruct (list_find _ _) as [[i j]|] eqn:Hf.
  - apply list_find_Some in Hf as (Hi & Hid & _).
    intros [= <-]. rewrite load_stored. cbn [jobs set_jobs].
    intros x (k & Hk)%list_elem_of_lookup_1 Hx.
    apply list_lookup_insert_Some in Hk as [(_ & <- & _)|[Hne Hk]]; [done|].
    exfalso. apply Hne.
    apply (proj1 (NoDup_alt _) Hn i k job_id); unfold live_ids;
      rewrite list_lookup_fmap.
    + rewrite Hi. simpl. by rewrite Hid.
    + rewrite Hk. simpl. by rewrite Hx.
  - intros [= <-] x Hx Hid. exfalso.
    apply list_find_None in Hf. rewrite Forall_forall in Hf. by apply (Hf x).
Qed.

Lemma update_job_to_completed_returns job_id now w :
  lock_held w = false ->
  exists w', update_job_to_completed job_id now w = (Returned tt, w').
Proof.
  intros Hl. rewrite update_job_to_completed_run by done.
  destruct (list_find _ _) as [[i j]|]; eauto.
Qed.

Lemma handle_failed_job_outcomes cfg jb now now' w :
  lock_held w = false ->
  (exists w', handle_failed_job cfg jb now now' w = (Returned tt, w')) \/
  handle_failed_job cfg jb now now' w = (Raised OverflowError, w).
Proof.
  intros Hl. rewrite handle_failed_job_run by done.
  destruct (list_find _ _) as [[i j]|]; [|eauto]. cbv zeta.
  destruct (_ <=? _); [eauto|]. destruct (add_seconds _ _); eauto.
Qed.

End Report.

(** X17: when [run_job] returns on a store whose live ids are pairwise
    distinct, the lease is resolved: a live job with the id of the reported
    job is completed if the subprocess ended with return code 0 and pending
    otherwise (or the job has left the live collection); it is never left
    processing. *)
Theorem run_job_resolves_the_lease cfg cfg2 jb result now now' now2 now2' w w' :
  lock_held w = false -> NoDup (live_ids w) ->
  run_job cfg cfg2 jb result now now' now2 now2' w = (Returned tt, w') ->
  forall x, x ∈ jobs (load w') -> id x = id jb ->
            state x = if succeeded result then completed else pending.
Proof.
  intros Hl Hn Hrun.
  assert (forall c n n', handle_failed_job c jb n n' w = (Returned tt, w') ->
            forall x, x ∈ jobs (load w') -> id x = id jb -> state x = pending)
    as Hfail.
  { intros c n n' H. by apply (handle_failed_job_resolves c jb n n' w w' Hl Hn). }
  destruct result as [rc| | |]; cbn [run_job succeeded] in *; eauto.
  unfold try_except in Hrun. destruct (rc =? 0).
  - destruct (update_job_to_completed_returns (id jb) now w Hl) as [w1 Hw1].
    rewrite Hw1 in Hrun. injection Hrun as <-.
    by apply (update_job_to_completed_resolves (id jb) now w w1).
  - destruct (handle_failed_job_outcomes cfg jb now now' w Hl) as [[w1 Hw1]|Hw1].
    + rewrite Hw1 in Hrun. injection Hrun as <-. by eapply Hfail.
    + rewrite Hw1 in Hrun. by eapply Hfail.
Qed.

Lemma run_job_resolves_the_lease_witness :
  state (mkJob "job-1" "exit 1" pending 1 3 (str noon_04) (str noon) (str noon_02)) =
    if succeeded (Exited 1) then completed else pending.
Proof.
  apply (run_job_resolves_the_lease DEFAULT_CONFIG DEFAULT_CONFIG
           (mkJob "job-1" "exit 1" processing 0 3 (str noon) (str noon) (str noon_01))
           (Exited 1) noon_02 noon_02 noon_04 noon_04 leased_once
           (stored (mkData
                      [mkJob "job-1" "exit 1" pending 1 3
                         (str noon_04) (str noon) (str noon_02)] [] []))).
  - reflexivity.
  - vm_compute. repeat constructor. apply not_elem_of_nil.
  - vm_compute. reflexivity.
  - vm_compute. apply list_elem_of_here.
  - reflexivity.
Defined.



(** ** The configuration file *)

Section Config.

Lemma setdefault_union key value (c : gmap string json) :
  setdefault key value c = c ∪ {[key := value]}.
Proof.
  unfold setdefault. destruct (c !! key) as [v|] eqn:Hk.
  - apply map_eq. intros k. rewrite lookup_union.
    destruct (decide (k = key)) as [->|Hne].
    + by rewrite Hk, lookup_singleton_eq.
    + rewrite lookup_singleton_ne by done. by destruct (c !! k).
  - by apply insert_union_singleton_r.
Qed.

Lemma setdefaults_union (l : list (string * json)) (c : gmap string json) :
  foldl (fun c kv => setdefault kv.1 kv.2 c) c l = c ∪ list_to_map l.
Proof.
  revert c. induction l as [|[k v] l IH]; intros c; simpl.
  - by rewrite (right_id_L ∅ (∪)).
  - rewrite IH, setdefault_union, <-(assoc_L (∪)).
    by rewrite <-insert_union_singleton_l.
Qed.

Lemma get_config_dict c :
  get_config (ConfigDict c) = (Returned (c ∪ DEFAULT_CONFIG_dict), ConfigDict c).
Proof. unfold get_config. by rewrite setdefaults_union. Qed.

End Config.

(** X19: [get_config] on a file holding a dictionary returns that
    dictionary completed by the defaults and leaves the file as it is: a
    key of the file keeps the file's value, a key only the defaults have
    gets the default, and every key of the defaults is present. *)
Theorem get_config_fills_in_defaults c :
  exists r,
    get_config (ConfigDict c) = (Returned r, ConfigDict c) /\
    (forall k v, c !! k = Some v -> r !! k = Some v) /\
    (forall k, c !! k = None -> r !! k = DEFAULT_CONFIG_dict !! k) /\
    (forall k v, (k, v) ∈ DEFAULT_CONFIG_items -> is_Some (r !! k)).
Proof.
  rewrite get_config_dict. eexists. split; [reflexivity|]. split_and!.
  - intros k v Hk. by apply lookup_union_Some_l.
  - intros k Hk. by apply lookup_union_r.
  - intros k v Hkv. rewrite lookup_union. 
    assert (is_Some (DEFAULT_CONFIG_dict !! k)) as [d Hd].
    { unfold DEFAULT_CONFIG_items in Hkv.
      repeat (apply elem_of_cons in Hkv as [[= -> ->]|Hkv]; [by eexists|]).
      by apply elem_of_nil in Hkv. }
    rewrite Hd. destruct (c !! k); by eexists.
Qed.

(** X20: [get_config] on a missing file writes the defaults and returns
    them, and what [storage.py] reads from the result is the default
    configuration; on a file that is not JSON it raises and leaves the file
    alone; in every other case a second call returns what the first
    returned and writes nothing. *)
Theorem get_config_outcomes f :
  match f with
  | NoConfigFile =>
      get_config f = (Returned DEFAULT_CONFIG_dict, ConfigDict DEFAULT_CONFIG_dict) /\
      config_of DEFAULT_CONFIG_dict = Some DEFAULT_CONFIG
  | InvalidConfig => get_config f = (Raised JSONDecodeError, f)
  | ConfigDict _ => exists r, get_config f = (Returned r, f)
  end /\
  forall r f', get_config f = (Returned r, f') -> get_config f' = (Returned r, f').
Proof.
  split.
  - destruct f as [| |c]; [split; [done|by vm_compute]|done|].
    rewrite get_config_dict. by eexists.
  - intros r f' Hget. destruct f as [| |c].
    + injection Hget as <- <-. unfold save_config. rewrite get_config_dict.
      by rewrite (idemp_L (∪)).
    + done.
    + rewrite get_config_dict in Hget. injection Hget as <- <-.
      by rewrite get_config_dict.
Qed.

(** X21: what [save_config] wrote, [get_config] reads back completed by the
    defaults, and exactly as written when the dictionary has every key of
    the defaults. *)
Theorem save_then_get_config c f :
  get_config (save_config c f) = (Returned (c ∪ DEFAULT_CONFIG_dict), ConfigDict c) /\
  ((forall k v, (k, v) ∈ DEFAULT_CONFIG_items -> is_Some (c !! k)) ->
   get_config (save_config c f) = (Returned c, ConfigDict c)).
Proof.
  unfold save_config. rewrite get_config_dict. split; [done|].
  intros Hall. do 2 f_equal. apply map_eq. intros k. rewrite lookup_union.
  destruct (c !! k) as [v|] eqn:Hk; [by destruct (DEFAULT_CONFIG_dict !! k)|].
  destruct (DEFAULT_CONFIG_dict !! k) as [d|] eqn:Hd; [|done].
  apply elem_of_list_to_map_2 in Hd. apply Hall in Hd as [v Hv]. congruence.
Qed.

Example custom_config_read :
  (get_config (ConfigDict custom_config)).1 =
    Returned (<["max_retries" := JInt 5]> (<["owner" := JStr "ops"]> DEFAULT_CONFIG_dict))
  /\ config_of (custom_config ∪ DEFAULT_CONFIG_dict) = Some (mkConfig 5 2 10 30).
Proof.
  rewrite get_config_dict. split; by vm_compute.
Qed.

(** ** The worker loop *)

Section Loop.

Context {T : Type} (overdue : T -> T -> Z -> bool).

Lemma releases_ret {A} (a : A) : releases (ret a).
Proof. by intros w Hl. Qed.

Lemma releases_bind {A B} (m : M A) (k : A -> M B) :
  releases m -> (forall a, releases (k a)) -> releases (bind m k).
Proof.
  intros Hm Hk w Hl. unfold bind. specialize (Hm w Hl).
  destruct (m w) as [[a|e] w1]; [by apply Hk|done].
Qed.

Lemma releases_try_except {A} (m h : M A) catches :
  releases m -> releases h -> releases (try_except m catches h).
Proof.
  intros Hm Hh w Hl. unfold try_except. specialize (Hm w Hl).
  destruct (m w) as [[a|e] w1]; [done|]. destruct (catches e); [by apply Hh|done].
Qed.

Lemma releases_worker_heartbeat p now now_reg :
  releases (worker_heartbeat p now now_reg).
Proof. intros w Hl. by apply (run_op_lock_free DEFAULT_CONFIG (OpHeartbeat p now now_reg)). Qed.

Lemma releases_dispatch now now' : releases (get_next_job_for_worker now now').
Proof. intros w Hl. by apply (run_op_lock_free DEFAULT_CONFIG (OpDispatch now now')). Qed.

Lemma releases_complete job_id now : releases (update_job_to_completed job_id now).
Proof. intros w Hl. by apply (run_op_lock_free DEFAULT_CONFIG (OpComplete job_id now)). Qed.

Lemma releases_fail cfg jb now now' : releases (handle_failed_job cfg jb now now').
Proof. intros w Hl. by apply (run_op_lock_free cfg (OpFail jb now now')). Qed.

Lemma releases_register p now : releases (register_worker p now).
Proof. intros w Hl. by apply (run_op_lock_free DEFAULT_CONFIG (OpRegister p now)). Qed.

Lemma releases_run_job cfg cfg2 jb result now now' now2 now2' :
  releases (run_job cfg cfg2 jb result now now' now2 now2').
Proof.
  destruct result as [rc| | |]; cbn [run_job]; try apply releases_fail.
  apply releases_try_except; [|apply releases_fail].
  destruct (rc =? 0); [apply releases_complete|apply releases_fail].
Qed.

Lemma releases_worker_pass interval p last it :
  releases (worker_pass overdue interval p last it).
Proof.
  unfold worker_pass. apply releases_bind.
  - destruct (overdue _ _ _); [|apply releases_ret].
    apply releases_bind; [apply releases_worker_heartbeat|].
    intros _. apply releases_ret.
  - intros last'. apply releases_bind; [apply releases_dispatch|].
    intros [jb|]; [|apply releases_ret].
    apply releases_bind; [apply releases_run_job|]. intros _. apply releases_ret.
Qed.

Lemma releases_worker_while interval p last passes :
  releases (worker_while overdue interval p last passes).
Proof.
  revert last. induction passes as [|it passes IH]; intros last; cbn [worker_while].
  - apply releases_ret.
  - apply releases_bind; [apply releases_worker_pass|].
    intros [last' [|]]; [apply IH|apply releases_ret].
Qed.

End Loop.

(** X22: however the worker loop ends, by the stop event, by an interrupt
    of the idle wait or by an exception of a storage call, it has given the
    lock back and the worker has no record left: the [finally] block has
    unregistered it.  The loop ends with an exception exactly when its body
    did. *)
Theorem worker_loop_unregisters {T} (overdue : T -> T -> Z -> bool)
    cfg p started now passes w :
  lock_held w = false ->
  exists r w',
    start_worker_loop overdue cfg p started now passes w = (r, w') /\
    lock_held w' = false /\ (p ∉ worker_pids w') /\
    r = (bind (register_worker p now)
           (fun _ => worker_while overdue (cfg_worker_heartbeat_seconds cfg) p
                       started passes) w).1.
Proof.
  intros Hl. unfold start_worker_loop, try_finally. cbv zeta.
  set (body := bind _ _).
  assert (releases body) as Hrel.
  { apply releases_bind; [apply releases_register|].
    intros _. apply releases_worker_while. }
  specialize (Hrel w Hl). destruct (body w) as [r w1]. cbn [fst snd] in *.
  rewrite unregister_worker_run by done.
  eexists _, _. split; [reflexivity|]. split_and!; [done| |done].
  rewrite worker_pids_stored. cbn [active_workers set_active_workers].
  intros (x & -> & [_ Hx]%elem_of_List_filter)%list_elem_of_fmap.
  by rewrite Z.eqb_refl in Hx.
Qed.

Lemma worker_loop_unregisters_witness :
  exists r w',
    start_worker_loop never_overdue DEFAULT_CONFIG 42 0 noon_01 [idle_pass] one_pending
      = (r, w') /\
    lock_held w' = false /\ (42 ∉ worker_pids w') /\
    r = (bind (register_worker 42 noon_01)
           (fun _ => worker_while never_overdue
                       (cfg_worker_heartbeat_seconds DEFAULT_CONFIG) 42 0 [idle_pass])
           one_pending).1.
Proof.
  exact (worker_loop_unregisters never_overdue DEFAULT_CONFIG 42 0 noon_01
           [idle_pass] one_pending eq_refl).
Defined.

Example idle_pass_completes_the_job :
  start_worker_loop never_overdue DEFAULT_CONFIG 42 0 noon_01 [idle_pass] one_pending =
    (Returned tt,
     stored (mkData
               [mkJob "job-1" "echo hi" completed 0 3 (str noon) (str noon) (str noon_02)]
               [] [])).
Proof. vm_compute. reflexivity. Qed.

(** X23: when a heartbeat falls due in a pass of the loop and the worker
    has no record (a status query has purged it), the pass ends with
    the lock timeout before any job is dispatched, the remaining passes are
    not run, and the snapshot is as it was. *)
Theorem purged_worker_stops_at_heartbeat {T} (overdue : T -> T -> Z -> bool)
    interval p last it passes w :
  lock_held w = false ->
  overdue (pass_time it) last interval = true ->
  (p ∉ worker_pids w) ->
  worker_while overdue interval p last (it :: passes) w =
    (Raised LockTimeout, stored (load w)).
Proof.
  intros Hl Hdue Hp. cbn [worker_while]. unfold worker_pass, bind at 1 2 3.
  rewrite Hdue. unfold bind at 1.
  rewrite worker_heartbeat_unregistered; [done..|].
  intros x Hx Hpid. apply Hp. rewrite <-Hpid. by apply list_elem_of_fmap_2.
Qed.

Lemma purged_worker_stops_at_heartbeat_witness :
  worker_while always_overdue 10 42 0 [idle_pass] one_pending =
    (Raised LockTimeout, stored (load one_pending)).
Proof.
  apply (purged_worker_stops_at_heartbeat always_overdue 10 42 0 idle_pass []
           one_pending).
  - reflexivity.
  - reflexivity.
  - vm_compute. apply not_elem_of_nil.
Defined.
